(** * Hue entertainment streaming controller (HueDtlsController)

    A shallow embedding of the DTLS streaming controller: the Node [Buffer]
    operations it uses, the frame layout built by [sendUpdatePacket], the
    2:1 throttle of [sendUpdate], the keepalive tick [updateKeepalive] and
    the [close] lifecycle, followed by the properties proved about them. *)

From Stdlib Require Import ZArith List Lia Bool.
From stdpp Require Import base list strings.

Import ListNotations.
Local Open Scope Z_scope.

(** ** JavaScript exceptions as an error type *)

(** The only exception the modelled code can raise comes from the Buffer
    writers: a [RangeError] naming the offending argument. *)
Inductive JsError : Type :=
| RangeError (arg : string).

Definition result (A : Type) : Type := JsError + A.

Definition ok {A} (a : A) : result A := inr a.
Definition throw {A} (e : JsError) : result A := inl e.

Definition rbind {A B} (m : result A) (k : A -> result B) : result B :=
  match m with
  | inl e => inl e
  | inr a => k a
  end.

Notation "x <-! m ; k" := (rbind m (fun x => k))
  (at level 100, m at next level, right associativity).

(** ** Node Buffer *)

Module Buffer.

(** A buffer is its sequence of bytes; every byte is a Z in [0, 255]. *)
Abbreviation t := (list Z).

(** Storing a number into a Uint8Array element keeps its low 8 bits. *)
Definition uint8_store (v : Z) : Z := Z.land v 255.

(** [Buffer.from([...])] *)
Definition from (bytes : list Z) : t := map uint8_store bytes.

(** [Buffer.alloc(size, fill)] *)
Definition alloc (size : nat) (fill : Z) : t := replicate size (uint8_store fill).

(** [source.copy(target, targetStart)]: copies as many bytes of [source] as
    fit into [target] from [targetStart] on; [target] keeps its length. *)
Definition copy (source target : t) (targetStart : nat) : t :=
  take targetStart target
    ++ take (length target - targetStart) source
    ++ drop (targetStart + length source) target.

(** [buf.writeUInt8(value, offset)]: the value is range-checked first, then
    the offset; only then is the byte stored. *)
Definition writeUInt8 (buf : t) (value : Z) (offset : nat) : result t :=
  if (255 <? value) || (value <? 0) then throw (RangeError "value")
  else if negb (offset <? length buf)%nat then throw (RangeError "offset")
  else ok (<[offset := uint8_store value]> buf).

(** [buf.writeUInt16BE(value, offset)]: range check on the value
    (0 to 65535), bounds check on both bytes, then the high byte
    ([value >>> 8]) and the low byte are stored in that order. *)
Definition writeUInt16BE (buf : t) (value : Z) (offset : nat) : result t :=
  if (65535 <? value) || (value <? 0) then throw (RangeError "value")
  else if negb (offset + 1 <? length buf)%nat then throw (RangeError "offset")
  else ok (<[(offset + 1)%nat := uint8_store value]>
             (<[offset := uint8_store (Z.shiftr value 8)]> buf)).

(** [buf.toString('hex').match(/../g).join(' ')] *)
Definition hex_digit (d : Z) : string :=
  match d with
  | 0 => "0" | 1 => "1" | 2 => "2" | 3 => "3" | 4 => "4" | 5 => "5"
  | 6 => "6" | 7 => "7" | 8 => "8" | 9 => "9" | 10 => "a" | 11 => "b"
  | 12 => "c" | 13 => "d" | 14 => "e" | _ => "f"
  end%string.

Definition hex_byte (b : Z) : string :=
  (hex_digit (Z.shiftr b 4) +:+ hex_digit (Z.land b 15))%string.

Fixpoint hex_pairs (buf : t) : string :=
  match buf with
  | [] => ""
  | [b] => hex_byte b
  | b :: rest => hex_byte b +:+ " " +:+ hex_pairs rest
  end%string.

End Buffer.

(** ** Data model *)

(** [interface ColorUpdate { lightId: number; color: [number, number, number] }]
    Numbers are modelled by the integers they denote. *)
Record ColorUpdate : Type := mkColorUpdate {
  lightId : Z;
  color : Z * Z * Z
}.

Definition color0 (u : ColorUpdate) : Z := fst (fst (color u)).
Definition color1 (u : ColorUpdate) : Z := snd (fst (color u)).
Definition color2 (u : ColorUpdate) : Z := snd (color u).

(** [const PACKET_HEADER = Buffer.from([0x48, ...])], the ASCII of "HueStream". *)
Definition PACKET_HEADER : Buffer.t :=
  Buffer.from [0x48; 0x75; 0x65; 0x53; 0x74; 0x72; 0x65; 0x61; 0x6d].

(** ** Frame encoding: the buffer built by [sendUpdatePacket] *)

(** Body of the [updates.forEach] callback; [offset] is the variable captured
    from the enclosing function and advanced by 9 per entry. *)
Definition forEach_body (st : Buffer.t * nat) (update : ColorUpdate)
  : result (Buffer.t * nat) :=
  let '(message, offset) := st in
  message <-! Buffer.writeUInt8 message 0 offset;
  message <-! Buffer.writeUInt16BE message (lightId update) (offset + 1);
  message <-! Buffer.writeUInt16BE message (color0 update) (offset + 3);
  message <-! Buffer.writeUInt16BE message (color1 update) (offset + 5);
  message <-! Buffer.writeUInt16BE message (color2 update) (offset + 7);
  ok (message, (offset + 9)%nat).

Fixpoint forEach (updates : list ColorUpdate) (st : Buffer.t * nat)
  : result (Buffer.t * nat) :=
  match updates with
  | [] => ok st
  | update :: rest => st' <-! forEach_body st update; forEach rest st'
  end.

(** Lines 109 to 126 of [sendUpdatePacket]: allocation, header, entries.
    The result is the [message] buffer handed to the log and the socket. *)
Definition encode (updates : list ColorUpdate) : result Buffer.t :=
  let message := Buffer.alloc (16 + length updates * 9) 0x00 in
  let message := Buffer.copy PACKET_HEADER message 0 in
  message <-! Buffer.writeUInt8 message 1 9;
  message <-! Buffer.writeUInt8 message 0 10;
  message <-! Buffer.writeUInt8 message 0 11;
  message <-! Buffer.writeUInt16BE message 0 12;
  message <-! Buffer.writeUInt8 message 0 14;
  message <-! Buffer.writeUInt8 message 0 15;
  st <-! forEach updates (message, 16%nat);
  ok (fst st).


(** Value ranges of the wire format. *)
Definition uint16 (v : Z) : Prop := 0 <= v <= 65535.

Definition valid_update (u : ColorUpdate) : Prop :=
  uint16 (lightId u) /\ uint16 (color0 u) /\ uint16 (color1 u) /\ uint16 (color2 u).

Definition valid_batch (updates : list ColorUpdate) : Prop :=
  Forall valid_update updates.

#[global] Instance uint16_dec (v : Z) : Decision (uint16 v).
Proof. unfold uint16. apply _. Defined.

#[global] Instance valid_update_dec (u : ColorUpdate) : Decision (valid_update u).
Proof. unfold valid_update. apply _. Defined.

#[global] Instance valid_batch_dec (updates : list ColorUpdate) :
  Decision (valid_batch updates).
Proof. unfold valid_batch. apply _. Defined.

(** The two bytes of a big-endian 16-bit field. *)
Definition hi (v : Z) : Z := Buffer.uint8_store (Z.shiftr v 8).
Definition lo (v : Z) : Z := Buffer.uint8_store v.

(** The 9 bytes one entry occupies on the wire. *)
Definition entry_bytes (u : ColorUpdate) : list Z :=
  [0; hi (lightId u); lo (lightId u);
      hi (color0 u); lo (color0 u);
      hi (color1 u); lo (color1 u);
      hi (color2 u); lo (color2 u)].

(** The 16 header bytes. *)
Definition header_bytes : list Z :=
  PACKET_HEADER ++ [1; 0; 0; 0; 0; 0; 0].

(** ** The controller object *)

(** The DTLS socket and the interval handle are opaque to the controller. *)
Inductive Socket : Type := DtlsSocket.
Definition Timeout : Type := nat.

(** The mutable fields of [class HueDtlsController]. A submitted batch is
    held by value: callers are taken not to mutate an array after passing it
    to [sendUpdate]. Timestamps are milliseconds since the epoch. *)
Record HueDtlsController : Type := mkController {
  socket : option Socket;
  opened : bool;
  skip : bool;
  lastUpdate : option (list ColorUpdate);
  lastUpdateTimestamp : option Z;
  updateKeepaliveTimeout : option Timeout
}.

(** Field initialisers of the class. *)
Definition new_controller : HueDtlsController :=
  {| socket := None; opened := false; skip := false;
     lastUpdate := None; lastUpdateTimestamp := None;
     updateKeepaliveTimeout := None |}.

Definition set_socket (v : option Socket) (c : HueDtlsController) :=
  mkController v (opened c) (skip c) (lastUpdate c) (lastUpdateTimestamp c)
               (updateKeepaliveTimeout c).
Definition set_opened (v : bool) (c : HueDtlsController) :=
  mkController (socket c) v (skip c) (lastUpdate c) (lastUpdateTimestamp c)
               (updateKeepaliveTimeout c).
Definition set_skip (v : bool) (c : HueDtlsController) :=
  mkController (socket c) (opened c) v (lastUpdate c) (lastUpdateTimestamp c)
               (updateKeepaliveTimeout c).
Definition set_lastUpdate (v : option (list ColorUpdate)) (c : HueDtlsController) :=
  mkController (socket c) (opened c) (skip c) v (lastUpdateTimestamp c)
               (updateKeepaliveTimeout c).
Definition set_lastUpdateTimestamp (v : option Z) (c : HueDtlsController) :=
  mkController (socket c) (opened c) (skip c) (lastUpdate c) v
               (updateKeepaliveTimeout c).
Definition set_updateKeepaliveTimeout (v : option Timeout) (c : HueDtlsController) :=
  mkController (socket c) (opened c) (skip c) (lastUpdate c)
               (lastUpdateTimestamp c) v.

(** What a method does to the outside world, in program order. *)
Inductive Effect : Type :=
| SocketWrite (message : list Z)      (* socket.write(message) *)
| SocketEnd                           (* socket.end(callback) *)
| ConsoleLog (line : string)          (* console.log(line) *)
| Emit (event : string)               (* this.emit(event) *)
| Uncaught (e : JsError).             (* exception leaving a callback or call *)

(** ** Methods: state, effect log and exceptions *)

Record Outcome (A : Type) : Type := mkOutcome {
  after : HueDtlsController;
  effects : list Effect;
  value : result A
}.
Arguments mkOutcome {A} _ _ _.
Arguments after {A} _.
Arguments effects {A} _.
Arguments value {A} _.

Definition Method (A : Type) : Type := HueDtlsController -> Outcome A.

Definition ret {A} (a : A) : Method A :=
  fun this => mkOutcome this [] (ok a).

Definition bind {A B} (m : Method A) (k : A -> Method B) : Method B :=
  fun this =>
    let o := m this in
    match value o with
    | inl e => mkOutcome (after o) (effects o) (inl e)
    | inr a =>
        let o' := k a (after o) in
        mkOutcome (after o') (effects o ++ effects o') (value o')
    end.

Definition get {A} (field : HueDtlsController -> A) : Method A :=
  fun this => mkOutcome this [] (ok (field this)).

Definition assign (set : HueDtlsController -> HueDtlsController) : Method unit :=
  fun this => mkOutcome (set this) [] (ok tt).

Definition perform (e : Effect) : Method unit :=
  fun this => mkOutcome this [e] (ok tt).

Definition lift {A} (r : result A) : Method A :=
  fun this => mkOutcome this [] r.

Notation "x <<- m ; k" := (bind m (fun x => k))
  (at level 100, m at next level, right associativity).
Notation "m ;;; k" := (bind m (fun _ => k))
  (at level 100, right associativity).

(** [private sendUpdatePacket(updates)] *)
Definition sendUpdatePacket (updates : list ColorUpdate) : Method unit :=
  message <<- lift (encode updates);
  perform (ConsoleLog (Buffer.hex_pairs message));;;
  isOpened <<- get opened;
  if isOpened then
    s <<- get socket;
    match s with
    | Some _ => perform (SocketWrite message)
    | None => ret tt
    end
  else ret tt.

(** [public sendUpdate(updates)]; [now] is the clock read by [new Date()]. *)
Definition sendUpdate (now : Z) (updates : list ColorUpdate) : Method unit :=
  s <<- get socket;
  isOpened <<- get opened;
  if bool_decide (s = None) || negb isOpened then ret tt
  else
    skipping <<- get skip;
    if skipping then assign (set_skip false)
    else
      assign (set_skip true);;;
      assign (set_lastUpdate (Some updates));;;
      assign (set_lastUpdateTimestamp (Some now));;;
      sendUpdatePacket updates.

(** [private updateKeepalive()]; [now] is the clock read by [Date.now()]. *)
Definition updateKeepalive (now : Z) : Method unit :=
  stamp <<- get lastUpdateTimestamp;
  if match stamp with
     | Some t => now - t <=? 2000
     | None => false
     end
  then ret tt
  else
    last <<- get lastUpdate;
    match last with
    | Some updates => sendUpdatePacket updates
    | None => ret tt
    end.

(** Where an [async] method stands when control returns to the event loop. *)
Inductive Suspension : Type :=
| Returned          (* the method ran to its end (or to a [return]) *)
| AwaitingEnd       (* suspended until the callback given to [socket.end] runs *)
| NeverResumed.     (* suspended on a promise nothing will settle *)

(** [public async close()], up to its [await]. With no socket the optional
    call [this.socket?.end(...)] is skipped, so the awaited promise is never
    resolved. *)
Definition close_prefix : Method Suspension :=
  isOpened <<- get opened;
  if negb isOpened then ret Returned
  else
    assign (set_opened false);;;
    s <<- get socket;
    match s with
    | Some _ => perform SocketEnd;;; ret AwaitingEnd
    | None => ret NeverResumed
    end.

(** [close()] after its [await]: the rest of the method body. *)
Definition close_resume : Method unit :=
  perform (Emit "close").

(** The session is usable: [connect] has stored the socket and the socket
    has fired 'connect'. *)
Definition connected (c : HueDtlsController) : Prop :=
  is_Some (socket c) /\ opened c = true.

(** The two effects of a packet that reaches the transport. *)
Definition transmission (message : list Z) : list Effect :=
  [ConsoleLog (Buffer.hex_pairs message); SocketWrite message].

(** The state in which an admitted batch is sent. *)
Definition accepted_state (now : Z) (updates : list ColorUpdate)
    (c : HueDtlsController) : HueDtlsController :=
  set_lastUpdateTimestamp (Some now) (set_lastUpdate (Some updates) (set_skip true c)).

(** A controller after [connect()] and the socket's 'connect' event. *)
Definition connected_controller : HueDtlsController :=
  {| socket := Some DtlsSocket; opened := true; skip := false;
     lastUpdate := None; lastUpdateTimestamp := None;
     updateKeepaliveTimeout := Some 0%nat |}.

(** ** The event loop around the controller *)

(** The controller together with what the runtime holds for it: the
    intervals started with [setInterval] and not cleared, the number of
    [close()] calls suspended on [socket.end]'s callback, and whether the
    [once('connect')] listener is still registered on the socket. *)
Record World : Type := mkWorld {
  this : HueDtlsController;
  intervals : list Timeout;
  pendingEnd : nat;
  connectOnce : bool
}.

Definition new_world : World :=
  {| this := new_controller; intervals := []; pendingEnd := 0%nat;
     connectOnce := false |}.

(** What the event loop can run next. *)
Inductive Event : Type :=
| CallConnect                                (* connect(), dtls.connect resolved *)
| SocketConnect                              (* socket emits 'connect' *)
| SocketClose                                (* socket emits 'close' *)
| SocketError                                (* socket emits 'error' *)
| CallClose                                  (* close() is called *)
| SocketEndCallback                          (* the callback given to socket.end runs *)
| CallSendUpdate (updates : list ColorUpdate)
| TimerTick (id : Timeout).                  (* an interval fires *)

(** An exception that leaves a method, as seen from outside. *)
Definition uncaught {A} (v : result A) : list Effect :=
  match v with
  | inl e => [Uncaught e]
  | inr _ => []
  end.

Definition returned {A} (v : result A) : option A :=
  match v with
  | inl _ => None
  | inr a => Some a
  end.

Definition with_this (c : HueDtlsController) (w : World) : World :=
  mkWorld c (intervals w) (pendingEnd w) (connectOnce w).

(** Run a method on the controller of a world; an exception that leaves the
    method is recorded after its effects. *)
Definition run_method {A} (m : Method A) (w : World) : World * list Effect * option A :=
  let o := m (this w) in
  (with_this (after o) w, effects o ++ uncaught (value o), returned (value o)).

(** [this.close()] as seen by the event loop. *)
Definition call_close (w : World) : World * list Effect :=
  let '(w', effs, r) := run_method close_prefix w in
  match r with
  | Some AwaitingEnd =>
      (mkWorld (this w') (intervals w') (S (pendingEnd w')) (connectOnce w'), effs)
  | _ => (w', effs)
  end.

Definition step (now : Z) (ev : Event) (w : World) : World * list Effect :=
  match ev with
  | CallConnect =>
      (* listeners registered, then
         this.updateKeepaliveTimeout = setInterval(updateKeepalive, 1000);
         this.socket = socket; *)
      let id := length (intervals w) in
      let c := set_socket (Some DtlsSocket)
                 (set_updateKeepaliveTimeout (Some id) (this w)) in
      (mkWorld c (intervals w ++ [id]) (pendingEnd w) true, [])
  | SocketConnect =>
      if connectOnce w then
        let '(w', effs, _) :=
          run_method (assign (set_opened true);;; perform (Emit "connected")) w in
        (mkWorld (this w') (intervals w') (pendingEnd w') false, effs)
      else (w, [])
  | SocketClose =>
      match socket (this w) with
      | Some _ => call_close w
      | None => (w, [])
      end
  | SocketError =>
      match socket (this w) with
      | Some _ =>
          let '(w', effs) := call_close w in
          (w', ConsoleLog "UDP Stream interrupted, closing connection." :: effs)
      | None => (w, [])
      end
  | CallClose => call_close w
  | SocketEndCallback =>
      match pendingEnd w with
      | O => (w, [])
      | S n =>
          let '(w', effs, _) := run_method close_resume w in
          (mkWorld (this w') (intervals w') n (connectOnce w'), effs)
      end
  | CallSendUpdate updates =>
      let '(w', effs, _) := run_method (sendUpdate now updates) w in (w', effs)
  | TimerTick id =>
      if bool_decide (id ∈ intervals w) then
        let '(w', effs, _) := run_method (updateKeepalive now) w in (w', effs)
      else (w, [])
  end.

(** A trace is a sequence of timestamped events. *)
Fixpoint run (trace : list (Z * Event)) (w : World) : World * list Effect :=
  match trace with
  | [] => (w, [])
  | (now, ev) :: rest =>
      let '(w1, effs1) := step now ev w in
      let '(w2, effs2) := run rest w1 in
      (w2, effs1 ++ effs2)
  end.

(** Successive keepalive ticks at the given clock readings. *)
Fixpoint keepalive_ticks (ticks : list Z) : Method unit :=
  match ticks with
  | [] => ret tt
  | now :: rest => updateKeepalive now;;; keepalive_ticks rest
  end.

(** Successive [sendUpdate] calls; each is paired with the state it ran in. *)
Fixpoint sendUpdate_calls (calls : list (Z * list ColorUpdate))
    (c : HueDtlsController) : list (HueDtlsController * Outcome unit) :=
  match calls with
  | [] => []
  | (now, updates) :: rest =>
      let o := sendUpdate now updates c in
      (c, o) :: sendUpdate_calls rest (after o)
  end.

(** Observations on effect logs. *)
Definition is_write (e : Effect) : bool :=
  match e with SocketWrite _ => true | _ => false end.

Definition is_emit (event : string) (e : Effect) : bool :=
  match e with Emit ev => String.eqb ev event | _ => false end.

Definition transmits (effs : list Effect) : bool := existsb is_write effs.

Definition writes (effs : list Effect) : list (list Z) :=
  flat_map (fun e => match e with SocketWrite m => [m] | _ => [] end) effs.

Definition count_emits (event : string) (effs : list Effect) : nat :=
  length (List.filter (is_emit event) effs).

(** Number of transmitting calls in a run. *)
Definition transmitting (runs : list (HueDtlsController * Outcome unit)) : nat :=
  length (filter (fun r => transmits (effects r.2) = true) runs).

(** What a world still owes in 'close' notifications: one if the session is
    open on a socket, one per [close()] suspended on [socket.end]. *)
Definition close_budget (w : World) : nat :=
  ((if opened (this w) && bool_decide (is_Some (socket (this w))) then 1 else 0)
   + pendingEnd w)%nat.

(** Events of one session: no second [connect()], no further 'connect'. *)
Definition session_event (e : Z * Event) : Prop :=
  e.2 <> CallConnect /\ e.2 <> SocketConnect.

(** ** Decoding, as the wire format table of the specification reads *)

(** One entry is 9 bytes: entry type 0, then light id, R, G, B, each as a
    big-endian 16-bit number. Anything else is not a sequence of entries. *)
Definition be16 (h l : Z) : Z := h * 256 + l.

Fixpoint decode_entries (bytes : list Z) : option (list (Z * Z * Z * Z)) :=
  match bytes with
  | [] => Some []
  | ty :: ih :: il :: rh :: rl :: gh :: gl :: bh :: bl :: rest =>
      if ty =? 0 then
        match decode_entries rest with
        | Some entries =>
            Some ((be16 ih il, be16 rh rl, be16 gh gl, be16 bh bl) :: entries)
        | None => None
        end
      else None
  | _ => None
  end.

Definition entry_of (u : ColorUpdate) : Z * Z * Z * Z :=
  (lightId u, color0 u, color1 u, color2 u).

(** The period given to [setInterval] in [connect()], in milliseconds. *)
Definition KEEPALIVE_PERIOD : Z := 1000.

(** ** Observations on traces *)

(** Calls of [connect()] in a trace. *)
Definition is_connect (e : Z * Event) : bool :=
  match e.2 with CallConnect => true | _ => false end.

Definition count_connects (trace : list (Z * Event)) : nat :=
  length (List.filter is_connect trace).

(** Interval ticks in a trace, and the trace without them. *)
Definition is_tick (e : Z * Event) : bool :=
  match e.2 with TimerTick _ => true | _ => false end.

Definition without_ticks (trace : list (Z * Event)) : list (Z * Event) :=
  List.filter (fun e => negb (is_tick e)) trace.

(** A 'connect' listener is registered on a stored socket. *)
Definition awaiting_connect (w : World) : Prop :=
  connectOnce w = true /\ is_Some (socket (this w)).

(** ** The command line: [startProcess] and [checkOrCreateConfigFile] *)

Module Cli.

(** One entry of the 'hue:lights' setting. The interface is declared in
    bridge.ts; the fields are those of the literals [runPair] stores, and
    [channelMode] can be missing, which [startProcess] tests for. *)
Record LightConfiguration : Type := mkLight {
  lightId : string;
  dmxStart : Z;
  channelMode : option string
}.

(** What [config.get] returns for the settings [startProcess] reads;
    [None] stands for [undefined]. *)
Record Settings : Type := mkSettings {
  hueHost : option string;
  hueUsername : option string;
  hueClientKey : option string;
  hueLights : option (list LightConfiguration);
  artnetHost : option string;
  artnetUniverse : option Z
}.

(** The argument of [new ArtNetHueBridge({...})]. *)
Record BridgeOptions : Type := mkBridgeOptions {
  optHueHost : string;
  optHueUsername : string;
  optHueClientKey : string;
  entertainmentRoomId : Z;
  artNetBindIp : option string;
  artNetUniverse : option Z;
  lights : list LightConfiguration
}.

Inductive CliEffect : Type :=
| Log (line : string)                  (* console.log *)
| LogError (line : string)             (* console.error *)
| Exit (code : Z)                      (* process.exit *)
| StartBridge (options : BridgeOptions)  (* new ArtNetHueBridge(options).start() *)
| TypeError.                           (* property access on undefined *)

(** The predicate given to [lights.some] and [lights.find]. *)
Definition invalid_channel_mode (light : LightConfiguration) : bool :=
  match channelMode light with
  | None => true
  | Some mode =>
      negb (String.eqb mode "8bit")
      && negb (String.eqb mode "8bit-dimmable")
      && negb (String.eqb mode "16bit")
  end.

(** [async startProcess()]: the effects it has, in order. Execution stops at
    [process.exit] and at an exception. *)
Definition startProcess (config : Settings) : list CliEffect :=
  match hueHost config, hueUsername config, hueClientKey config with
  | Some host, Some username, Some clientKey =>
      match hueLights config with
      | None => [TypeError]
      | Some ls =>
          if existsb invalid_channel_mode ls then
            match List.find invalid_channel_mode ls with
            | Some light =>
                [LogError
                   ("Invalid channel mode in light configuration (lightId "
                    +:+ lightId light
                    +:+ "). Valid values are: 8bit, 8bit-dimmable, 16bit")%string;
                 Exit 1]
            | None => [TypeError]
            end
          else
            [StartBridge
               {| optHueHost := host; optHueUsername := username;
                  optHueClientKey := clientKey; entertainmentRoomId := 200;
                  artNetBindIp := artnetHost config;
                  artNetUniverse := artnetUniverse config;
                  lights := ls |}]
      end
  | _, _, _ => [Log "No Hue bridge is paired yet. Please pair a bridge first"]
  end.

(** What is found at CONFIG_FILE_PATH. Permissions and node kinds other than
    regular files and directories are not modelled. *)
Inductive PathState : Type :=
| Absent
| RegularFile (content : string)
| Directory.

Inductive FsError : Type := ENOENT | EISDIR.

(** [stat(path)] followed by [isFile()]. *)
Definition stat_isFile (p : PathState) : FsError + bool :=
  match p with
  | Absent => inl ENOENT
  | RegularFile _ => inr true
  | Directory => inr false
  end.

(** [open(path, 'w')]: creates or truncates a regular file. *)
Definition open_w (p : PathState) : FsError + PathState :=
  match p with
  | Absent | RegularFile _ => inr (RegularFile "")
  | Directory => inl EISDIR
  end.

(** [fd.write(text)] on a file just opened with 'w'. *)
Definition fd_write (text : string) (p : PathState) : PathState :=
  match p with
  | RegularFile content => RegularFile (content +:+ text)
  | other => other
  end.

(** The text written to a new file:
    {"artnet": {"host": "127.0.0.1", "universe": 11}} *)
Definition quote : string := String (Ascii.ascii_of_nat 34) EmptyString.

Definition default_config : string :=
  ("{" +:+ quote +:+ "artnet" +:+ quote +:+ ": {"
   +:+ quote +:+ "host" +:+ quote +:+ ": "
   +:+ quote +:+ "127.0.0.1" +:+ quote +:+ ", "
   +:+ quote +:+ "universe" +:+ quote +:+ ": 11}}")%string.

(** [private async checkOrCreateConfigFile()]: the path afterwards and the
    error the returned promise is rejected with, if any. *)
Definition checkOrCreateConfigFile (p : PathState) : PathState * option FsError :=
  let exists_ :=
    match stat_isFile p with
    | inr isFile => isFile
    | inl _ => false
    end in
  if negb exists_ then
    match open_w p with
    | inr opened_ => (fd_write default_config opened_, None)
    | inl e => (p, Some e)
    end
  else (p, None).

End Cli.

(** * Properties *)

(** ** Buffer writer lemmas *)

Section BufferWrites.

Lemma writeUInt8_at (buf pre : list Z) (x : Z) (rest : list Z) (v : Z) (off : nat) :
  buf = pre ++ x :: rest ->
  off = length pre ->
  0 <= v <= 255 ->
  Buffer.writeUInt8 buf v off = ok (pre ++ Buffer.uint8_store v :: rest).
Proof.
  intros -> -> Hv. unfold Buffer.writeUInt8.
  replace ((255 <? v) || (v <? 0)) with false
    by (symmetry; apply orb_false_iff; split; apply Z.ltb_ge; lia).
  replace (length pre <? length (pre ++ x :: rest))%nat with true
    by (symmetry; apply Nat.ltb_lt; rewrite length_app; simpl; lia).
  cbn [negb]. unfold ok. f_equal.
  rewrite <- (Nat.add_0_r (length pre)). by rewrite insert_app_r.
Qed.

Lemma writeUInt16BE_at (buf pre : list Z) (x y : Z) (rest : list Z) (v : Z) (off : nat) :
  buf = pre ++ x :: y :: rest ->
  off = length pre ->
  uint16 v ->
  Buffer.writeUInt16BE buf v off = ok (pre ++ hi v :: lo v :: rest).
Proof.
  intros -> -> Hv. unfold Buffer.writeUInt16BE, uint16 in *.
  replace ((65535 <? v) || (v <? 0)) with false
    by (symmetry; apply orb_false_iff; split; apply Z.ltb_ge; lia).
  replace (length pre + 1 <? length (pre ++ x :: y :: rest))%nat with true
    by (symmetry; apply Nat.ltb_lt; rewrite length_app; simpl; lia).
  cbn [negb]. unfold ok. f_equal.
  rewrite <- (Nat.add_0_r (length pre)) at 2.
  by rewrite !insert_app_r.
Qed.

End BufferWrites.

(** Side conditions of the writer lemmas: the shape of the buffer around the
    written bytes, the offset, and the range of the value. *)
Ltac buffer_side :=
  solve [ rewrite <- ?app_assoc; reflexivity
        | rewrite ?length_app; simpl; lia
        | unfold uint16 in *; lia
        | assumption ].

(** ** Closed form of the encoder *)

Lemma forEach_body_spec (pre : list Z) (z0 z1 z2 z3 z4 z5 z6 z7 z8 : Z)
    (rest : list Z) (u : ColorUpdate) (off : nat) :
  off = length pre ->
  valid_update u ->
  forEach_body (pre ++ z0 :: z1 :: z2 :: z3 :: z4 :: z5 :: z6 :: z7 :: z8 :: rest, off) u
  = ok (pre ++ entry_bytes u ++ rest, (off + 9)%nat).
Proof.
  intros Hoff (Hid & Hr & Hg & Hb). unfold forEach_body.
  erewrite (writeUInt8_at _ pre) by buffer_side. cbn [rbind ok].
  erewrite (writeUInt16BE_at _ (pre ++ [Buffer.uint8_store 0])) by buffer_side.
  cbn [rbind ok].
  erewrite (writeUInt16BE_at _
    (pre ++ [Buffer.uint8_store 0; hi (lightId u); lo (lightId u)])) by buffer_side.
  cbn [rbind ok].
  erewrite (writeUInt16BE_at _
    (pre ++ [Buffer.uint8_store 0; hi (lightId u); lo (lightId u);
             hi (color0 u); lo (color0 u)])) by buffer_side.
  cbn [rbind ok].
  erewrite (writeUInt16BE_at _
    (pre ++ [Buffer.uint8_store 0; hi (lightId u); lo (lightId u);
             hi (color0 u); lo (color0 u); hi (color1 u); lo (color1 u)]))
    by buffer_side.
  cbn [rbind ok]. unfold ok. do 2 f_equal.
  rewrite <- app_assoc. reflexivity.
Qed.

Lemma forEach_spec (updates : list ColorUpdate) :
  valid_batch updates ->
  forall (pre : list Z) (off : nat),
    off = length pre ->
    forEach updates (pre ++ replicate (length updates * 9) 0, off)
    = ok (pre ++ flat_map entry_bytes updates, (off + length updates * 9)%nat).
Proof.
  induction 1 as [| u us Hu Hus IH]; intros pre off Hoff.
  - simpl. rewrite Nat.add_0_r. reflexivity.
  - cbn [forEach length Nat.mul Nat.add replicate].
    rewrite forEach_body_spec by assumption. cbn [rbind ok].
    rewrite app_assoc. rewrite IH by (rewrite length_app; simpl; lia).
    unfold ok. f_equal. f_equal.
    + cbn [flat_map]. by rewrite <- app_assoc.
    + lia.
Qed.

(** On a batch of 16-bit values the encoder returns the header followed by
    the entries in batch order. *)
Lemma encode_closed_form (updates : list ColorUpdate) :
  valid_batch updates ->
  encode updates = ok (header_bytes ++ flat_map entry_bytes updates).
Proof.
  intros Hv. unfold encode.
  transitivity
    (st <-! forEach updates
              (header_bytes ++ replicate (length updates * 9) 0, 16%nat);
     ok (fst st)); [reflexivity |].
  rewrite forEach_spec by (assumption || reflexivity).
  reflexivity.
Qed.

(** ** Big-endian fields *)

Lemma uint8_store_mod (v : Z) : Buffer.uint8_store v = v mod 256.
Proof. unfold Buffer.uint8_store. exact (Z.land_ones v 8 ltac:(lia)). Qed.

Lemma hi_div (v : Z) : uint16 v -> hi v = v / 256.
Proof.
  intros Hv. unfold hi, uint16 in *. rewrite uint8_store_mod.
  rewrite Z.shiftr_div_pow2 by lia. change (2 ^ 8) with 256.
  apply Z.mod_small. split.
  - apply Z.div_pos; lia.
  - apply Z.div_lt_upper_bound; lia.
Qed.

Lemma be16_hi_lo (v : Z) : uint16 v -> be16 (hi v) (lo v) = v.
Proof.
  intros Hv. unfold be16. rewrite hi_div by assumption.
  unfold lo. rewrite uint8_store_mod.
  pose proof (Z.div_mod v 256 ltac:(lia)). lia.
Qed.

Lemma entry_bytes_length (updates : list ColorUpdate) :
  length (flat_map entry_bytes updates) = (9 * length updates)%nat.
Proof. induction updates as [| u us IH]; simpl; lia. Qed.

Lemma decode_entry_bytes (updates : list ColorUpdate) :
  valid_batch updates ->
  decode_entries (flat_map entry_bytes updates) = Some (map entry_of updates).
Proof.
  induction 1 as [| u us (Hid & Hr & Hg & Hb) _ IH]; [reflexivity |].
  cbn [flat_map entry_bytes app decode_entries Z.eqb].
  rewrite IH. cbn [map]. unfold entry_of.
  by rewrite !be16_hi_lo.
Qed.

(** ** Values the writers reject *)

Lemma writeUInt16BE_range (buf : list Z) (v : Z) (off : nat) :
  ~ uint16 v -> Buffer.writeUInt16BE buf v off = throw (RangeError "value").
Proof.
  intros Hv. unfold Buffer.writeUInt16BE, uint16 in *.
  replace ((65535 <? v) || (v <? 0)) with true; [reflexivity |].
  symmetry. apply orb_true_iff.
  destruct (Z.ltb_spec 65535 v); [by left | right].
  apply Z.ltb_lt. lia.
Qed.

Lemma forEach_body_invalid (pre : list Z) (z0 z1 z2 z3 z4 z5 z6 z7 z8 : Z)
    (rest : list Z) (u : ColorUpdate) (off : nat) :
  off = length pre ->
  ~ valid_update u ->
  forEach_body (pre ++ z0 :: z1 :: z2 :: z3 :: z4 :: z5 :: z6 :: z7 :: z8 :: rest, off) u
  = throw (RangeError "value").
Proof.
  intros Hoff Hu. unfold forEach_body.
  erewrite (writeUInt8_at _ pre) by buffer_side. cbn [rbind ok].
  destruct (decide (uint16 (lightId u))) as [Hid | Hid];
    [| by rewrite writeUInt16BE_range].
  erewrite (writeUInt16BE_at _ (pre ++ [Buffer.uint8_store 0])) by buffer_side.
  cbn [rbind ok].
  destruct (decide (uint16 (color0 u))) as [Hr | Hr];
    [| by rewrite writeUInt16BE_range].
  erewrite (writeUInt16BE_at _
    (pre ++ [Buffer.uint8_store 0; hi (lightId u); lo (lightId u)])) by buffer_side.
  cbn [rbind ok].
  destruct (decide (uint16 (color1 u))) as [Hg | Hg];
    [| by rewrite writeUInt16BE_range].
  erewrite (writeUInt16BE_at _
    (pre ++ [Buffer.uint8_store 0; hi (lightId u); lo (lightId u);
             hi (color0 u); lo (color0 u)])) by buffer_side.
  cbn [rbind ok].
  destruct (decide (uint16 (color2 u))) as [Hb | Hb];
    [| by rewrite writeUInt16BE_range].
  exfalso. apply Hu. exact (conj Hid (conj Hr (conj Hg Hb))).
Qed.

Lemma forEach_invalid (updates : list ColorUpdate) :
  ~ valid_batch updates ->
  forall (pre : list Z) (off : nat),
    off = length pre ->
    forEach updates (pre ++ replicate (length updates * 9) 0, off)
    = throw (RangeError "value").
Proof.
  induction updates as [| u us IH]; intros Hbad pre off Hoff.
  - exfalso. apply Hbad. constructor.
  - cbn [forEach length Nat.mul Nat.add replicate].
    destruct (decide (valid_update u)) as [Hu | Hu].
    + rewrite forEach_body_spec by assumption. cbn [rbind ok].
      rewrite app_assoc. apply IH.
      * intros Hus. apply Hbad. by constructor.
      * rewrite length_app. simpl. lia.
    + by rewrite forEach_body_invalid.
Qed.

Lemma encode_invalid (updates : list ColorUpdate) :
  ~ valid_batch updates -> encode updates = throw (RangeError "value").
Proof.
  intros Hbad. unfold encode.
  transitivity
    (st <-! forEach updates
              (header_bytes ++ replicate (length updates * 9) 0, 16%nat);
     ok (fst st)); [reflexivity |].
  by rewrite forEach_invalid.
Qed.

(** ** Frame encoder *)

(** Validity of a concrete batch is settled by computation. *)
Ltac valid_by_decide :=
  match goal with
  | |- ?P => apply (bool_decide_unpack P); vm_compute; exact I
  end.

(** C3. Frame shape: a batch of [N] ColorUpdate entries (16-bit light id and
    colour components, any [N]) is encoded into exactly [16 + 9 * N] bytes,
    and the first 16 bytes do not depend on the batch: the 9-byte magic
    "HueStream" at offset 0, major version 1 at offset 9, minor version 0 at
    offset 10, sequence counter 0 at offset 11, two reserved zero bytes at
    offset 12, colour space 0 at offset 14 and a reserved zero byte at
    offset 15. *)
Theorem encode_shape (updates : list ColorUpdate) :
  valid_batch updates ->
  exists message : list Z,
    encode updates = ok message
    /\ length message = (16 + 9 * length updates)%nat
    /\ take 9 message = [0x48; 0x75; 0x65; 0x53; 0x74; 0x72; 0x65; 0x61; 0x6d]
    /\ message !! 9%nat = Some 1
    /\ message !! 10%nat = Some 0
    /\ message !! 11%nat = Some 0
    /\ message !! 12%nat = Some 0 /\ message !! 13%nat = Some 0
    /\ message !! 14%nat = Some 0
    /\ message !! 15%nat = Some 0.
Proof.
  intros Hv. exists (header_bytes ++ flat_map entry_bytes updates).
  split; [by apply encode_closed_form |].
  split; [| by repeat split].
  rewrite length_app, entry_bytes_length. reflexivity.
Qed.

Lemma encode_shape_witness :
  exists message : list Z,
    encode [mkColorUpdate 1 (0, 65535, 0); mkColorUpdate 2 (65535, 0, 255)]
      = ok message
    /\ length message = 34%nat.
Proof.
  destruct (encode_shape
              [mkColorUpdate 1 (0, 65535, 0); mkColorUpdate 2 (65535, 0, 255)]
              ltac:(valid_by_decide))
    as (message & Henc & Hlen & _).
  exists message. split; [exact Henc | exact Hlen].
Defined.

(** C4. Round trip: for a batch whose light ids and colour components are in
    [0, 65535], reading the bytes after the 16-byte header as 9-byte entries
    (type byte 0, then light id, R, G, B as big-endian 16-bit numbers) gives
    back the (lightId, R, G, B) tuples of the batch, all of them and in batch
    order. *)
Theorem encode_roundtrip (updates : list ColorUpdate) :
  valid_batch updates ->
  exists message : list Z,
    encode updates = ok message
    /\ decode_entries (drop 16 message) = Some (map entry_of updates).
Proof.
  intros Hv. exists (header_bytes ++ flat_map entry_bytes updates).
  split; [by apply encode_closed_form |].
  change (drop 16 (header_bytes ++ flat_map entry_bytes updates))
    with (flat_map entry_bytes updates).
  by apply decode_entry_bytes.
Qed.

Lemma encode_roundtrip_witness :
  exists message : list Z,
    encode [mkColorUpdate 513 (0, 65535, 258); mkColorUpdate 7 (1, 2, 3)]
      = ok message
    /\ decode_entries (drop 16 message)
       = Some [(513, 0, 65535, 258); (7, 1, 2, 3)].
Proof.
  exact (encode_roundtrip
           [mkColorUpdate 513 (0, 65535, 258); mkColorUpdate 7 (1, 2, 3)]
           ltac:(valid_by_decide)).
Defined.

(** C9, as the code has it. Encoding succeeds on every batch whose light
    ids and colour components are integers in [0, 65535]; a value outside
    that range is not reduced modulo 2^16: the 16-bit writer rejects it with
    a range error on its value argument and no frame is produced. *)
Theorem encode_total_on_uint16 (updates : list ColorUpdate) :
  (valid_batch updates -> exists message : list Z, encode updates = ok message)
  /\ (~ valid_batch updates -> encode updates = throw (RangeError "value")).
Proof.
  split.
  - intros Hv. eexists. by apply encode_closed_form.
  - apply encode_invalid.
Qed.

Lemma encode_total_on_uint16_witness :
  (exists message : list Z, encode [mkColorUpdate 1 (0, 65535, 0)] = ok message)
  /\ encode [mkColorUpdate 1 (0, 65536, 0)] = throw (RangeError "value").
Proof.
  split.
  - apply (proj1 (encode_total_on_uint16 [mkColorUpdate 1 (0, 65535, 0)])).
    valid_by_decide.
  - apply (proj2 (encode_total_on_uint16 [mkColorUpdate 1 (0, 65536, 0)])).
    intros Hv. apply (bool_decide_pack _) in Hv. vm_compute in Hv. exact Hv.
Defined.

(** C9, as stated, fails: were out-of-range values written modulo 2^16,
    light id 65536 would be encoded like light id 0. The encoder returns a
    frame for the latter and raises for the former. *)
Lemma encode_out_of_range_raises :
  encode [mkColorUpdate 65536 (0, 0, 0)] = throw (RangeError "value")
  /\ encode [mkColorUpdate (65536 mod 2 ^ 16) (0, 0, 0)]
     = ok [72; 117; 101; 83; 116; 114; 101; 97; 109; 1; 0; 0; 0; 0; 0; 0;
           0; 0; 0; 0; 0; 0; 0; 0; 0].
Proof. split; reflexivity. Qed.

(** C10, as the code has it. Three lights: a batch of exactly three entries
    is encoded into 43 bytes; byte 16 is the first entry's type byte 0, bytes
    17 and 18 are the first light's id, high byte first, and bytes 23 and 24
    are the first light's B component, high byte first. *)
Theorem encode_three_lights (u1 u2 u3 : ColorUpdate) :
  valid_batch [u1; u2; u3] ->
  exists (message : list Z) (b17 b18 b23 b24 : Z),
    encode [u1; u2; u3] = ok message
    /\ length message = 43%nat
    /\ message !! 16%nat = Some 0
    /\ message !! 17%nat = Some b17 /\ message !! 18%nat = Some b18
    /\ message !! 23%nat = Some b23 /\ message !! 24%nat = Some b24
    /\ 0 <= b17 < 256 /\ 0 <= b18 < 256 /\ 0 <= b23 < 256 /\ 0 <= b24 < 256
    /\ be16 b17 b18 = lightId u1
    /\ be16 b23 b24 = color2 u1.
Proof.
  intros Hv.
  assert (Hu1 : valid_update u1) by (by inversion Hv).
  destruct Hu1 as (Hid & _ & _ & Hb).
  exists (header_bytes ++ flat_map entry_bytes [u1; u2; u3]),
    (hi (lightId u1)), (lo (lightId u1)), (hi (color2 u1)), (lo (color2 u1)).
  split; [by apply encode_closed_form |].
  do 6 (split; [reflexivity |]).
  assert (Hbyte : forall v, 0 <= Buffer.uint8_store v < 256).
  { intros v. rewrite uint8_store_mod. apply Z.mod_pos_bound. lia. }
  do 4 (split; [apply Hbyte |]).
  split; [exact (be16_hi_lo _ Hid) | exact (be16_hi_lo _ Hb)].
Qed.

Lemma encode_three_lights_witness :
  exists (message : list Z) (b17 b18 b23 b24 : Z),
    encode [mkColorUpdate 258 (1, 2, 772); mkColorUpdate 2 (0, 0, 0);
            mkColorUpdate 3 (65535, 65535, 65535)] = ok message
    /\ length message = 43%nat
    /\ message !! 16%nat = Some 0
    /\ message !! 17%nat = Some b17 /\ message !! 18%nat = Some b18
    /\ message !! 23%nat = Some b23 /\ message !! 24%nat = Some b24
    /\ 0 <= b17 < 256 /\ 0 <= b18 < 256 /\ 0 <= b23 < 256 /\ 0 <= b24 < 256
    /\ be16 b17 b18 = 258
    /\ be16 b23 b24 = 772.
Proof.
  exact (encode_three_lights
           (mkColorUpdate 258 (1, 2, 772)) (mkColorUpdate 2 (0, 0, 0))
           (mkColorUpdate 3 (65535, 65535, 65535))
           ltac:(valid_by_decide)).
Defined.

(** C10, as stated, fails: with first light id 258 (bytes 01 02) the frame
    has 00 01 at offsets 16 and 17, which read big-endian is 1, not 258. *)
Lemma encode_three_lights_bytes_16_17 :
  exists message : list Z,
    encode [mkColorUpdate 258 (1, 2, 772); mkColorUpdate 2 (0, 0, 0);
            mkColorUpdate 3 (65535, 65535, 65535)] = ok message
    /\ length message = 43%nat
    /\ message !! 16%nat = Some 0 /\ message !! 17%nat = Some 1
    /\ be16 0 1 <> 258.
Proof.
  eexists. split; [reflexivity |]. by repeat split.
Qed.

(** ** Methods, equation by equation *)

Arguments encode : simpl never.
Arguments Buffer.hex_pairs : simpl never.

Lemma sendUpdatePacket_eq (updates : list ColorUpdate) (c : HueDtlsController) :
  sendUpdatePacket updates c =
  match encode updates with
  | inl e => mkOutcome c [] (inl e)
  | inr message =>
      mkOutcome c
        (ConsoleLog (Buffer.hex_pairs message)
           :: (if opened c
               then match socket c with
                    | Some _ => [SocketWrite message]
                    | None => []
                    end
               else []))
        (ok tt)
  end.
Proof.
  unfold sendUpdatePacket, bind, lift, perform, get, ret. cbn.
  destruct (encode updates); [reflexivity |]. cbn.
  destruct (opened c); [| reflexivity]. cbn.
  destruct (socket c); reflexivity.
Qed.

Lemma sendUpdatePacket_after (updates : list ColorUpdate) (c : HueDtlsController) :
  after (sendUpdatePacket updates c) = c.
Proof. rewrite sendUpdatePacket_eq. by destruct (encode updates). Qed.

Lemma sendUpdatePacket_connected (updates : list ColorUpdate) (message : list Z)
    (c : HueDtlsController) :
  connected c ->
  encode updates = ok message ->
  sendUpdatePacket updates c = mkOutcome c (transmission message) (ok tt).
Proof.
  intros [[s Hs] Ho] Henc. rewrite sendUpdatePacket_eq, Henc. unfold ok.
  by rewrite Ho, Hs.
Qed.

Lemma sendUpdatePacket_no_write (updates : list ColorUpdate) (c : HueDtlsController) :
  socket c = None \/ opened c = false ->
  writes (effects (sendUpdatePacket updates c)) = [].
Proof.
  intros H. rewrite sendUpdatePacket_eq.
  destruct (encode updates); [reflexivity |]. cbn.
  destruct (opened c); [| reflexivity].
  destruct (socket c); [| reflexivity].
  by destruct H.
Qed.

Lemma sendUpdate_not_connected (now : Z) (updates : list ColorUpdate)
    (c : HueDtlsController) :
  socket c = None \/ opened c = false ->
  sendUpdate now updates c = mkOutcome c [] (ok tt).
Proof.
  intros H. unfold sendUpdate, bind, get, ret. cbn.
  destruct H as [-> | ->]; [reflexivity |].
  by rewrite orb_true_r.
Qed.

Lemma sendUpdate_suppressed (now : Z) (updates : list ColorUpdate)
    (c : HueDtlsController) :
  connected c ->
  skip c = true ->
  sendUpdate now updates c = mkOutcome (set_skip false c) [] (ok tt).
Proof.
  intros [[s Hs] Ho] Hk. unfold sendUpdate, bind, get, ret, assign. cbn.
  rewrite Hs, Ho. cbn. by rewrite Hk.
Qed.

Lemma sendUpdate_accepted (now : Z) (updates : list ColorUpdate)
    (c : HueDtlsController) :
  connected c ->
  skip c = false ->
  sendUpdate now updates c =
  let o := sendUpdatePacket updates (accepted_state now updates c) in
  mkOutcome (accepted_state now updates c) (effects o) (value o).
Proof.
  intros [[s Hs] Ho] Hk. unfold sendUpdate, bind, get, ret, assign. cbn.
  rewrite Hs, Ho. cbn. rewrite Hk. cbn.
  fold (accepted_state now updates c).
  pose proof (sendUpdatePacket_after updates (accepted_state now updates c)) as Hafter.
  destruct (sendUpdatePacket updates (accepted_state now updates c)) as [c' effs v].
  cbn in *. by subst c'.
Qed.

Lemma accepted_state_connected (now : Z) (updates : list ColorUpdate)
    (c : HueDtlsController) :
  connected c -> connected (accepted_state now updates c).
Proof. intros [Hs Ho]. by split. Qed.

Lemma updateKeepalive_eq (now : Z) (c : HueDtlsController) :
  updateKeepalive now c =
  if match lastUpdateTimestamp c with
     | Some t => now - t <=? 2000
     | None => false
     end
  then mkOutcome c [] (ok tt)
  else match lastUpdate c with
       | Some updates => sendUpdatePacket updates c
       | None => mkOutcome c [] (ok tt)
       end.
Proof.
  unfold updateKeepalive, bind, get, ret. cbn.
  destruct (match lastUpdateTimestamp c with Some t => _ | None => _ end);
    [reflexivity |]. cbn.
  destruct (lastUpdate c) as [updates |]; [| reflexivity].
  pose proof (sendUpdatePacket_after updates c) as Hafter.
  destruct (sendUpdatePacket updates c) as [c' effs v]. cbn in *.
  subst c'. reflexivity.
Qed.

Lemma updateKeepalive_after (now : Z) (c : HueDtlsController) :
  after (updateKeepalive now c) = c.
Proof.
  rewrite updateKeepalive_eq.
  destruct (match lastUpdateTimestamp c with Some t => _ | None => _ end);
    [reflexivity |].
  destruct (lastUpdate c); [apply sendUpdatePacket_after | reflexivity].
Qed.

(** ** Throttle, keepalive and the Last-Accepted-Update *)

Lemma connected_controller_connected : connected connected_controller.
Proof. split; [by eexists | reflexivity]. Defined.

Lemma keepalive_ticks_stale (c : HueDtlsController) (T : Z)
    (batch : list ColorUpdate) (message : list Z) (ticks : list Z) :
  connected c ->
  lastUpdate c = Some batch ->
  lastUpdateTimestamp c = Some T ->
  encode batch = ok message ->
  keepalive_ticks ticks c =
  mkOutcome c
    (flat_map (fun now => if now - T <=? 2000 then [] else transmission message) ticks)
    (ok tt).
Proof.
  intros Hc Hlast Hstamp Henc.
  induction ticks as [| now rest IH]; [reflexivity |].
  cbn [keepalive_ticks flat_map]. unfold bind.
  rewrite updateKeepalive_eq, Hstamp, Hlast.
  destruct (now - T <=? 2000); cbn.
  - by rewrite IH.
  - rewrite (sendUpdatePacket_connected _ message) by assumption. cbn.
    by rewrite IH.
Qed.

Lemma keepalive_ticks_nothing_sent (c : HueDtlsController) (ticks : list Z) :
  lastUpdate c = None ->
  keepalive_ticks ticks c = mkOutcome c [] (ok tt).
Proof.
  intros Hlast. induction ticks as [| now rest IH]; [reflexivity |].
  cbn [keepalive_ticks]. unfold bind.
  rewrite updateKeepalive_eq, Hlast.
  destruct (match lastUpdateTimestamp c with Some t => _ | None => _ end);
    cbn; by rewrite IH.
Qed.

(** C1, as the code has it. Keepalive timing: with a Last-Accepted-Update
    recorded at time [T] on a connected session and no further admitted
    update, a keepalive tick at clock reading [now] transmits nothing while
    [now - T <= 2000] ms (the instant [T + 2s] included), and every tick
    with [now - T > 2000] ms writes the encoding of that batch, byte for
    byte, leaving the controller unchanged so that the following ticks do
    the same; when no update was ever admitted every tick is a no-op. *)
Theorem keepalive_timing (c : HueDtlsController) (ticks : list Z) :
  (forall (T : Z) (batch : list ColorUpdate) (message : list Z),
     connected c ->
     lastUpdate c = Some batch ->
     lastUpdateTimestamp c = Some T ->
     encode batch = ok message ->
     after (keepalive_ticks ticks c) = c
     /\ value (keepalive_ticks ticks c) = ok tt
     /\ effects (keepalive_ticks ticks c)
        = flat_map (fun now => if now - T <=? 2000 then []
                               else transmission message) ticks
     /\ writes (effects (keepalive_ticks ticks c))
        = flat_map (fun now => if T + 2000 <? now then [message] else []) ticks)
  /\ (lastUpdate c = None ->
      after (keepalive_ticks ticks c) = c
      /\ effects (keepalive_ticks ticks c) = []).
Proof.
  split.
  - intros T batch message Hc Hlast Hstamp Henc.
    rewrite (keepalive_ticks_stale c T batch message) by assumption.
    cbn [after value effects]. do 3 (split; [reflexivity |]).
    clear. induction ticks as [| now rest IH]; [reflexivity |].
    cbn [flat_map]. unfold writes in *. rewrite flat_map_app, IH.
    f_equal.
    destruct (Z.leb_spec (now - T) 2000), (Z.ltb_spec (T + 2000) now);
      (reflexivity || lia).
  - intros Hlast. by rewrite keepalive_ticks_nothing_sent.
Qed.

Lemma keepalive_timing_witness :
  let c := after (sendUpdate 1000 [mkColorUpdate 1 (0, 65535, 0)] connected_controller) in
  writes (effects (keepalive_ticks [1500; 2500; 3000; 3001; 4001] c))
  = [[72; 117; 101; 83; 116; 114; 101; 97; 109; 1; 0; 0; 0; 0; 0; 0;
      0; 0; 1; 0; 0; 255; 255; 0; 0];
     [72; 117; 101; 83; 116; 114; 101; 97; 109; 1; 0; 0; 0; 0; 0; 0;
      0; 0; 1; 0; 0; 255; 255; 0; 0]].
Proof.
  intros c.
  refine (proj2 (proj2 (proj2
    (proj1 (keepalive_timing c [1500; 2500; 3000; 3001; 4001])
       1000 [mkColorUpdate 1 (0, 65535, 0)] _ _ _ _ _)))).
  - split; [by eexists | reflexivity].
  - reflexivity.
  - reflexivity.
  - reflexivity.
Defined.

(** C1, as stated, fails at the boundary: a batch admitted at T = 1000 ms and
    a keepalive tick at exactly T + 2s = 3000 ms, which is a tick at or after
    T + 2s, yet nothing is written. *)
Lemma keepalive_silent_at_two_seconds :
  let c := after (sendUpdate 1000 [mkColorUpdate 1 (0, 65535, 0)] connected_controller) in
  connected c
  /\ lastUpdate c = Some [mkColorUpdate 1 (0, 65535, 0)]
  /\ lastUpdateTimestamp c = Some 1000
  /\ 1000 + 2000 <= 3000
  /\ effects (updateKeepalive 3000 c) = [].
Proof.
  cbv zeta. split; [split; [by eexists | reflexivity] |].
  split; [reflexivity |]. split; [reflexivity |]. split; [lia | reflexivity].
Qed.

(** C7. No transmission when not connected: while the controller has no
    socket or is not opened (never connected, or closed), [sendUpdate] returns
    without any effect and without touching the state, and a keepalive tick
    writes nothing to the transport and leaves the state as it is. *)
Theorem no_transmission_when_not_connected (c : HueDtlsController) (now : Z)
    (updates : list ColorUpdate) :
  socket c = None \/ opened c = false ->
  sendUpdate now updates c = mkOutcome c [] (ok tt)
  /\ writes (effects (updateKeepalive now c)) = []
  /\ transmits (effects (updateKeepalive now c)) = false
  /\ after (updateKeepalive now c) = c.
Proof.
  intros H. split; [by apply sendUpdate_not_connected |].
  assert (Hw : writes (effects (updateKeepalive now c)) = []).
  { rewrite updateKeepalive_eq.
    destruct (match lastUpdateTimestamp c with Some t => _ | None => _ end);
      [reflexivity |].
    destruct (lastUpdate c); [by apply sendUpdatePacket_no_write | reflexivity]. }
  split; [exact Hw |]. split; [| apply updateKeepalive_after].
  revert Hw. generalize (effects (updateKeepalive now c)).
  induction l as [| e l IH]; [reflexivity |].
  destruct e; cbn; try exact IH. discriminate.
Qed.

Lemma no_transmission_when_not_connected_witness :
  let c := set_opened false
             (after (sendUpdate 1000 [mkColorUpdate 1 (0, 65535, 0)]
                       connected_controller)) in
  sendUpdate 5000 [mkColorUpdate 2 (1, 2, 3)] c = mkOutcome c [] (ok tt)
  /\ writes (effects (updateKeepalive 5000 c)) = []
  /\ transmits (effects (updateKeepalive 5000 c)) = false
  /\ after (updateKeepalive 5000 c) = c.
Proof.
  intros c.
  apply (no_transmission_when_not_connected c 5000 [mkColorUpdate 2 (1, 2, 3)]).
  right. reflexivity.
Defined.

(** C8. Last-Accepted-Update framing: a batch admitted by the throttle
    overwrites Last-Accepted-Update with that batch and the current clock
    reading; a keepalive tick, retransmitting or not, leaves the batch, its
    timestamp and the throttle flag (indeed the whole controller state)
    unchanged; and a [sendUpdate] call that is not admitted leaves batch and
    timestamp as they were. Only admitted calls refresh the timestamp. *)
Theorem last_accepted_update_framing (c : HueDtlsController) (now : Z)
    (updates : list ColorUpdate) :
  (connected c -> skip c = false ->
     lastUpdate (after (sendUpdate now updates c)) = Some updates
     /\ lastUpdateTimestamp (after (sendUpdate now updates c)) = Some now)
  /\ (after (updateKeepalive now c) = c)
  /\ (~ (connected c /\ skip c = false) ->
      lastUpdate (after (sendUpdate now updates c)) = lastUpdate c
      /\ lastUpdateTimestamp (after (sendUpdate now updates c))
         = lastUpdateTimestamp c).
Proof.
  split; [| split].
  - intros Hc Hk. by rewrite sendUpdate_accepted.
  - apply updateKeepalive_after.
  - intros Hn.
    destruct (socket c) as [s |] eqn:Hs;
      [| by rewrite sendUpdate_not_connected by (by left)].
    destruct (opened c) eqn:Ho;
      [| by rewrite sendUpdate_not_connected by (by right)].
    assert (Hc : connected c) by (split; [by eexists | assumption]).
    destruct (skip c) eqn:Hk; [by rewrite sendUpdate_suppressed |].
    exfalso. by apply Hn.
Qed.

Lemma last_accepted_update_framing_witness :
  lastUpdate (after (sendUpdate 1000 [mkColorUpdate 1 (0, 65535, 0)]
                       connected_controller))
    = Some [mkColorUpdate 1 (0, 65535, 0)]
  /\ lastUpdateTimestamp (after (sendUpdate 1000 [mkColorUpdate 1 (0, 65535, 0)]
                                   connected_controller))
    = Some 1000.
Proof.
  apply (proj1 (last_accepted_update_framing connected_controller 1000
                  [mkColorUpdate 1 (0, 65535, 0)])).
  - exact connected_controller_connected.
  - reflexivity.
Defined.

(** ** The 2:1 throttle *)

Lemma sendUpdate_connected_after (now : Z) (updates : list ColorUpdate)
    (c : HueDtlsController) :
  connected c ->
  connected (after (sendUpdate now updates c))
  /\ skip (after (sendUpdate now updates c)) = negb (skip c).
Proof.
  intros Hc. destruct (skip c) eqn:Hk.
  - rewrite sendUpdate_suppressed by assumption. cbn.
    destruct Hc as [Hs Ho]. by repeat split.
  - rewrite sendUpdate_accepted by assumption. cbn.
    destruct Hc as [Hs Ho]. by repeat split.
Qed.

(** The [i]-th call (from 0) runs in a connected state whose flag is the
    initial flag flipped [i] times. *)
Lemma sendUpdate_calls_lookup (calls : list (Z * list ColorUpdate)) :
  forall (c : HueDtlsController) (i : nat) (now : Z) (updates : list ColorUpdate)
         (before : HueDtlsController) (o : Outcome unit),
    connected c ->
    calls !! i = Some (now, updates) ->
    sendUpdate_calls calls c !! i = Some (before, o) ->
    connected before
    /\ skip before = xorb (skip c) (Nat.odd i)
    /\ o = sendUpdate now updates before.
Proof.
  induction calls as [| [now0 updates0] rest IH];
    intros c i now updates before o Hc Hcall Hrun; [discriminate |].
  destruct i as [| j].
  - cbn in Hcall, Hrun. injection Hcall as <- <-. injection Hrun as <- <-.
    rewrite xorb_false_r. split; [exact Hc |]. split; reflexivity.
  - cbn in Hcall, Hrun.
    destruct (sendUpdate_connected_after now0 updates0 c Hc) as [Hc' Hk'].
    destruct (IH _ _ _ _ _ _ Hc' Hcall Hrun) as (Hb & Hkb & Ho).
    split; [exact Hb |]. split; [| exact Ho].
    rewrite Hkb, Hk', Nat.odd_succ, <- Nat.negb_odd.
    by destruct (skip c), (Nat.odd j).
Qed.

Lemma sendUpdate_calls_length (calls : list (Z * list ColorUpdate)) :
  forall c : HueDtlsController,
    length (sendUpdate_calls calls c) = length calls.
Proof.
  induction calls as [| [now updates] rest IH]; intros c; [reflexivity |].
  cbn. by rewrite IH.
Qed.

Lemma transmitting_count (calls : list (Z * list ColorUpdate)) :
  Forall (fun call => valid_batch call.2) calls ->
  forall c : HueDtlsController,
    connected c ->
    transmitting (sendUpdate_calls calls c)
    = Nat.div2 (if skip c then length calls else S (length calls)).
Proof.
  unfold transmitting.
  induction 1 as [| [now updates] rest Hv Hrest IH]; intros c Hc.
  - by destruct (skip c).
  - cbn [sendUpdate_calls].
    destruct (sendUpdate_connected_after now updates c Hc) as [Hc' Hk'].
    rewrite filter_cons. cbn [snd].
    destruct (skip c) eqn:Hk.
    + rewrite decide_False.
      2:{ rewrite sendUpdate_suppressed by assumption. cbn. discriminate. }
      rewrite IH by assumption. rewrite Hk'. reflexivity.
    + rewrite decide_True.
      2:{ rewrite sendUpdate_accepted by assumption. cbn.
          rewrite (sendUpdatePacket_connected updates
                     (header_bytes ++ flat_map entry_bytes updates)).
          - reflexivity.
          - by apply accepted_state_connected.
          - by apply encode_closed_form. }
      cbn [length]. rewrite IH by assumption. rewrite Hk'. reflexivity.
Qed.

(** C2. Throttle decimation: of [K] successive [sendUpdate] calls on a
    connected session starting with the flag at admit, exactly [ceil(K/2)]
    transmit, namely the calls at odd positions counted from 1; such a call
    logs and writes the encoding of its batch, while a call at an even
    position has no effect at all, returns normally and changes nothing in
    the state except the flag, which goes back to admit. *)
Theorem throttle_decimation (calls : list (Z * list ColorUpdate))
    (c : HueDtlsController) :
  connected c ->
  skip c = false ->
  Forall (fun call => valid_batch call.2) calls ->
  transmitting (sendUpdate_calls calls c) = ((length calls + 1) / 2)%nat
  /\ forall (i : nat) (now : Z) (updates : list ColorUpdate),
       calls !! i = Some (now, updates) ->
       exists (before : HueDtlsController) (o : Outcome unit),
         sendUpdate_calls calls c !! i = Some (before, o)
         /\ transmits (effects o) = Nat.odd (S i)
         /\ (Nat.odd (S i) = true ->
             skip before = false
             /\ exists message : list Z,
                  encode updates = ok message
                  /\ effects o = transmission message)
         /\ (Nat.odd (S i) = false ->
             skip before = true
             /\ effects o = []
             /\ value o = ok tt
             /\ after o = set_skip false before).
Proof.
  intros Hc Hk Hv. split.
  - rewrite transmitting_count, Hk by assumption.
    rewrite Nat.div2_div. f_equal. lia.
  - intros i now updates Hcall.
    destruct (sendUpdate_calls calls c !! i) as [[before o] |] eqn:Hrun.
    2:{ apply lookup_ge_None in Hrun. rewrite sendUpdate_calls_length in Hrun.
        apply lookup_lt_Some in Hcall. lia. }
    exists before, o. split; [reflexivity |].
    destruct (sendUpdate_calls_lookup _ _ _ _ _ _ _ Hc Hcall Hrun)
      as (Hb & Hkb & ->).
    rewrite Hk, xorb_false_l in Hkb.
    rewrite Nat.odd_succ, <- Nat.negb_odd, <- Hkb.
    assert (Hvu : valid_batch updates).
    { rewrite Forall_lookup in Hv. exact (Hv i _ Hcall). }
    destruct (skip before) eqn:Hkb'.
    + rewrite sendUpdate_suppressed by assumption. cbn.
      split; [reflexivity |]. split; [discriminate |]. by intros _.
    + rewrite sendUpdate_accepted by assumption. cbn.
      rewrite (sendUpdatePacket_connected updates
                 (header_bytes ++ flat_map entry_bytes updates))
        by (by apply accepted_state_connected || by apply encode_closed_form).
      cbn. split; [reflexivity |]. split; [| discriminate].
      intros _. split; [reflexivity |]. eexists.
      split; [by apply encode_closed_form | reflexivity].
Qed.

Lemma throttle_decimation_witness :
  transmitting
    (sendUpdate_calls
       [(0, [mkColorUpdate 1 (0, 65535, 0)]); (10, [mkColorUpdate 1 (9, 9, 9)]);
        (20, [mkColorUpdate 2 (1, 2, 3)])]
       connected_controller) = 2%nat.
Proof.
  refine (proj1 (throttle_decimation
    [(0, [mkColorUpdate 1 (0, 65535, 0)]); (10, [mkColorUpdate 1 (9, 9, 9)]);
     (20, [mkColorUpdate 2 (1, 2, 3)])]
    connected_controller connected_controller_connected eq_refl _)).
  repeat constructor; valid_by_decide.
Defined.

(** ** Session lifecycle *)

Arguments sendUpdate : simpl never.
Arguments updateKeepalive : simpl never.

Lemma writes_app (xs ys : list Effect) : writes (xs ++ ys) = writes xs ++ writes ys.
Proof. unfold writes. apply flat_map_app. Qed.

Lemma writes_uncaught {A} (v : result A) : writes (uncaught v) = [].
Proof. by destruct v. Qed.

Lemma count_emits_app (event : string) (xs ys : list Effect) :
  count_emits event (xs ++ ys) = (count_emits event xs + count_emits event ys)%nat.
Proof. unfold count_emits. by rewrite List.filter_app, length_app. Qed.

Lemma count_emits_uncaught {A} (event : string) (v : result A) :
  count_emits event (uncaught v) = 0%nat.
Proof. by destruct v. Qed.

Lemma updateKeepalive_no_write (now : Z) (c : HueDtlsController) :
  socket c = None \/ opened c = false ->
  writes (effects (updateKeepalive now c)) = [].
Proof.
  intros H. rewrite updateKeepalive_eq.
  destruct (match lastUpdateTimestamp c with Some t => _ | None => _ end);
    [reflexivity |].
  destruct (lastUpdate c); [by apply sendUpdatePacket_no_write | reflexivity].
Qed.

Lemma sendUpdatePacket_no_emit (event : string) (updates : list ColorUpdate)
    (c : HueDtlsController) :
  count_emits event (effects (sendUpdatePacket updates c)) = 0%nat.
Proof.
  rewrite sendUpdatePacket_eq.
  destruct (encode updates); [reflexivity |]. cbn.
  destruct (opened c); [| reflexivity].
  by destruct (socket c).
Qed.

Lemma updateKeepalive_no_emit (event : string) (now : Z) (c : HueDtlsController) :
  count_emits event (effects (updateKeepalive now c)) = 0%nat.
Proof.
  rewrite updateKeepalive_eq.
  destruct (match lastUpdateTimestamp c with Some t => _ | None => _ end);
    [reflexivity |].
  destruct (lastUpdate c); [apply sendUpdatePacket_no_emit | reflexivity].
Qed.

(** [sendUpdate] neither opens nor closes the session and notifies nobody. *)
Lemma sendUpdate_lifecycle (now : Z) (updates : list ColorUpdate)
    (c : HueDtlsController) (event : string) :
  opened (after (sendUpdate now updates c)) = opened c
  /\ socket (after (sendUpdate now updates c)) = socket c
  /\ count_emits event (effects (sendUpdate now updates c)) = 0%nat.
Proof.
  destruct (socket c) as [s |] eqn:Hs;
    [| by rewrite sendUpdate_not_connected by (by left)].
  destruct (opened c) eqn:Ho;
    [| by rewrite sendUpdate_not_connected by (by right)].
  assert (Hc : connected c) by (split; [by eexists | assumption]).
  destruct (skip c) eqn:Hk.
  - rewrite sendUpdate_suppressed by assumption. by cbn.
  - rewrite sendUpdate_accepted by assumption. cbn.
    split; [exact Ho |]. split; [exact Hs |]. apply sendUpdatePacket_no_emit.
Qed.

(** [close()] up to its await, case by case. *)
Lemma call_close_eq (w : World) :
  call_close w =
  if opened (this w) then
    match socket (this w) with
    | Some _ =>
        (mkWorld (set_opened false (this w)) (intervals w) (S (pendingEnd w))
                 (connectOnce w), [SocketEnd])
    | None => (with_this (set_opened false (this w)) w, [])
    end
  else (w, []).
Proof.
  destruct w as [c ivs p once]. unfold call_close, run_method, close_prefix.
  unfold bind, get, ret, assign, perform. cbn.
  destruct (opened c) eqn:Ho; cbn; [| reflexivity].
  destruct (socket c); reflexivity.
Qed.

Lemma call_close_closes (w : World) :
  opened (this (call_close w).1) = false.
Proof.
  rewrite call_close_eq.
  destruct (opened (this w)) eqn:Ho; [| exact Ho].
  by destruct (socket (this w)).
Qed.

(** Once the session is not opened, no event but the socket's 'connect'
    opens it, and nothing is written meanwhile. *)
Lemma step_closed (now : Z) (ev : Event) (w : World) :
  opened (this w) = false ->
  ev <> SocketConnect ->
  opened (this (step now ev w).1) = false
  /\ writes (step now ev w).2 = [].
Proof.
  intros Ho Hev.
  assert (Hclose : call_close w = (w, [])) by (by rewrite call_close_eq, Ho).
  destruct ev; cbn [step].
  - by split.
  - congruence.
  - destruct (socket (this w)); [rewrite Hclose |]; by split.
  - destruct (socket (this w)); [rewrite Hclose |]; by split.
  - rewrite Hclose. by split.
  - destruct (pendingEnd w); by split.
  - unfold run_method. cbn.
    rewrite sendUpdate_not_connected by (by right). by split.
  - destruct (bool_decide (id ∈ intervals w)); [| by split].
    unfold run_method. cbn. rewrite updateKeepalive_after. split; [exact Ho |].
    rewrite writes_app, writes_uncaught, app_nil_r.
    apply updateKeepalive_no_write. by right.
Qed.

Lemma run_closed (trace : list (Z * Event)) :
  Forall (fun e => e.2 <> SocketConnect) trace ->
  forall w : World,
    opened (this w) = false ->
    writes (run trace w).2 = [].
Proof.
  induction 1 as [| [now ev] rest Hev Hrest IH]; intros w Ho; [reflexivity |].
  cbn [run]. destruct (step_closed now ev w Ho Hev) as [Ho' Hw].
  destruct (step now ev w) as [w1 effs1]. cbn [fst snd] in Ho', Hw.
  specialize (IH w1 Ho'). destruct (run rest w1) as [w2 effs2].
  cbn [fst snd] in *. by rewrite writes_app, Hw, IH.
Qed.

(** Every 'close' notification is paid for out of the budget. *)
Lemma step_close_budget (now : Z) (ev : Event) (w : World) :
  ev <> CallConnect ->
  ev <> SocketConnect ->
  (count_emits "close" (step now ev w).2 + close_budget (step now ev w).1)%nat
  = close_budget w.
Proof.
  intros Hcc Hsc.
  assert (Hclose :
    (count_emits "close" (call_close w).2 + close_budget (call_close w).1)%nat
    = close_budget w).
  { rewrite call_close_eq. unfold close_budget.
    destruct (opened (this w)) eqn:Ho; [| cbn [fst snd]; by rewrite Ho].
    destruct (socket (this w)) as [s |] eqn:Hs; cbn; rewrite ?Hs; reflexivity. }
  destruct ev; cbn [step]; [congruence | congruence | | | exact Hclose | | |].
  - destruct (socket (this w)); [exact Hclose | reflexivity].
  - destruct (socket (this w)); [| reflexivity].
    destruct (call_close w) as [w' effs]. exact Hclose.
  - destruct (pendingEnd w) as [| n] eqn:Hp; [reflexivity |].
    unfold close_budget. cbn. rewrite Hp. lia.
  - unfold run_method, close_budget, with_this.
    cbn [fst snd this pendingEnd].
    destruct (sendUpdate_lifecycle now updates (this w) "close") as (-> & -> & Hn).
    by rewrite count_emits_app, Hn, count_emits_uncaught.
  - destruct (bool_decide (id ∈ intervals w)); [| reflexivity].
    unfold run_method, close_budget, with_this.
    cbn [fst snd this pendingEnd]. rewrite updateKeepalive_after.
    by rewrite count_emits_app, updateKeepalive_no_emit, count_emits_uncaught.
Qed.

Lemma run_close_budget (trace : list (Z * Event)) :
  Forall session_event trace ->
  forall w : World,
    (count_emits "close" (run trace w).2 + close_budget (run trace w).1)%nat
    = close_budget w.
Proof.
  induction 1 as [| [now ev] rest [Hcc Hsc] Hrest IH]; intros w; [reflexivity |].
  cbn [run]. pose proof (step_close_budget now ev w Hcc Hsc) as Hstep.
  destruct (step now ev w) as [w1 effs1]. cbn [fst snd] in Hstep.
  specialize (IH w1). destruct (run rest w1) as [w2 effs2].
  cbn [fst snd] in *. rewrite count_emits_app. lia.
Qed.

(** C6. Terminal notification exactly once: on a connected session two
    [close()] calls in succession, whether the second comes before or after
    the socket has finished, emit 'close' exactly once, and whatever else the
    session then does the count never exceeds one; a [close()] on a
    controller that is not opened (never connected, or closed already) is a
    no-op without notification. *)
Theorem close_notification_once (w : World) (t1 t2 : Z) :
  connected (this w) ->
  pendingEnd w = 0%nat ->
  (forall rest : list (Z * Event),
     Forall session_event rest ->
     (count_emits "close"
        (run ((t1, CallClose) :: (t2, CallClose) :: rest) w).2 <= 1)%nat)
  /\ (forall t3 : Z,
        count_emits "close"
          (run [(t1, CallClose); (t2, CallClose); (t3, SocketEndCallback)] w).2
        = 1%nat)
  /\ (forall t3 : Z,
        count_emits "close"
          (run [(t1, CallClose); (t3, SocketEndCallback); (t2, CallClose)] w).2
        = 1%nat)
  /\ (forall (w' : World) (t : Z),
        opened (this w') = false -> step t CallClose w' = (w', [])).
Proof.
  intros [[s Hs] Ho] Hp. split; [| split; [| split]].
  - intros rest Hrest.
    assert (Htrace : Forall session_event ((t1, CallClose) :: (t2, CallClose) :: rest)).
    { repeat (constructor; [by split |]). exact Hrest. }
    pose proof (run_close_budget _ Htrace w) as Hbudget.
    unfold close_budget at 2 in Hbudget.
    rewrite Ho, Hs, Hp, bool_decide_true in Hbudget by (by eexists).
    set (n := count_emits _ _) in *. set (m := close_budget _) in Hbudget.
    cbn in Hbudget. lia.
  - intros t3. destruct w as [[sock o k lu ts tm] ivs p once].
    cbn in Hs, Ho, Hp. subst. reflexivity.
  - intros t3. destruct w as [[sock o k lu ts tm] ivs p once].
    cbn in Hs, Ho, Hp. subst. reflexivity.
  - intros w' t Ho'. cbn [step]. by rewrite call_close_eq, Ho'.
Qed.

Lemma close_notification_once_witness :
  count_emits "close"
    (run [(2000, CallClose); (2001, CallClose); (2010, SocketEndCallback)]
         (mkWorld connected_controller [0%nat] 0 false)).2 = 1%nat.
Proof.
  apply (proj1 (proj2 (close_notification_once
                         (mkWorld connected_controller [0%nat] 0 false)
                         2000 2001 connected_controller_connected eq_refl))).
Defined.

(** C5, as the code has it. After [close()] has been called nothing reaches
    the transport any more: until the socket fires 'connect' again, no
    keepalive tick (nor any other event) writes to the socket, because the
    session is no longer opened. Whether the interval itself is cancelled is
    not part of the statement. *)
Theorem no_write_after_close (w : World) (t : Z) (trace : list (Z * Event)) :
  Forall (fun e => e.2 <> SocketConnect) trace ->
  opened (this (step t CallClose w).1) = false
  /\ writes (run trace (step t CallClose w).1).2 = [].
Proof.
  intros Htrace.
  assert (Ho : opened (this (step t CallClose w).1) = false)
    by apply call_close_closes.
  split; [exact Ho |]. by apply run_closed.
Qed.

Lemma no_write_after_close_witness :
  let w := (run [(0, CallConnect); (10, SocketConnect);
                 (1000, CallSendUpdate [mkColorUpdate 1 (0, 65535, 0)])]
                new_world).1 in
  opened (this (step 2000 CallClose w).1) = false
  /\ writes (run [(2010, SocketEndCallback); (4000, TimerTick 0%nat);
                  (4500, CallSendUpdate [mkColorUpdate 1 (1, 1, 1)]);
                  (5000, TimerTick 0%nat)]
                 (step 2000 CallClose w).1).2 = [].
Proof.
  intros w.
  apply (no_write_after_close w 2000
           [(2010, SocketEndCallback); (4000, TimerTick 0%nat);
            (4500, CallSendUpdate [mkColorUpdate 1 (1, 1, 1)]);
            (5000, TimerTick 0%nat)]).
  repeat constructor; discriminate.
Defined.

(** C5, as stated, fails: [close()] leaves the interval started by
    [connect()] registered. After connect, one update, [close()] and the end
    of the socket, the timer with handle 0 is still among the running
    intervals, and its tick at 5000 ms re-encodes the stale batch and logs
    the frame (nothing is written). *)
Lemma keepalive_timer_survives_close :
  let w := (run [(0, CallConnect); (10, SocketConnect);
                 (1000, CallSendUpdate [mkColorUpdate 1 (0, 65535, 0)]);
                 (2000, CallClose); (2010, SocketEndCallback)]
                new_world).1 in
  opened (this w) = false
  /\ pendingEnd w = 0%nat
  /\ updateKeepaliveTimeout (this w) = Some 0%nat
  /\ intervals w = [0%nat]
  /\ (step 5000 (TimerTick 0%nat) w).2
     = [ConsoleLog
          "48 75 65 53 74 72 65 61 6d 01 00 00 00 00 00 00 00 00 01 00 00 ff ff 00 00"].
Proof. cbv zeta. repeat split; vm_compute; reflexivity. Qed.

(** * Further properties of the code *)

(** ** Frame encoder *)

Lemma encode_ok_valid (updates : list ColorUpdate) (message : list Z) :
  encode updates = ok message -> valid_batch updates.
Proof.
  intros Henc. destruct (decide (valid_batch updates)) as [Hv | Hbad]; [exact Hv |].
  rewrite encode_invalid in Henc by assumption. discriminate.
Qed.

Lemma uint8_store_byte (v : Z) : 0 <= Buffer.uint8_store v < 256.
Proof. rewrite uint8_store_mod. apply Z.mod_pos_bound. lia. Qed.

Lemma entry_bytes_bytes (updates : list ColorUpdate) :
  Forall (fun b => 0 <= b < 256) (flat_map entry_bytes updates).
Proof.
  induction updates as [| u us IH]; [constructor |].
  cbn [flat_map]. apply Forall_app. split; [| exact IH].
  unfold entry_bytes, hi, lo.
  repeat (constructor; [first [apply uint8_store_byte | lia] |]). constructor.
Qed.

(** X1. Whenever the encoder returns a frame, every element of it is a byte
    (0 to 255), whatever the batch. *)
Theorem encode_bytes (updates : list ColorUpdate) (message : list Z) :
  encode updates = ok message ->
  Forall (fun b => 0 <= b < 256) message.
Proof.
  intros Henc. pose proof (encode_ok_valid _ _ Henc) as Hv.
  rewrite encode_closed_form in Henc by assumption.
  assert (Hm : message = header_bytes ++ flat_map entry_bytes updates)
    by (unfold ok in Henc; congruence).
  subst message. apply Forall_app. split; [| apply entry_bytes_bytes].
  unfold header_bytes, PACKET_HEADER, Buffer.from. cbn [map app].
  repeat (apply Forall_cons; split; [first [apply uint8_store_byte | lia] |]).
  apply Forall_nil_2.
Qed.

Lemma encode_bytes_witness :
  Forall (fun b => 0 <= b < 256)
    [72; 117; 101; 83; 116; 114; 101; 97; 109; 1; 0; 0; 0; 0; 0; 0;
     0; 0; 1; 0; 0; 255; 255; 0; 0].
Proof.
  exact (encode_bytes [mkColorUpdate 1 (0, 65535, 0)] _ eq_refl).
Defined.

Lemma drop_entries (pre : list ColorUpdate) (rest : list Z) :
  drop (9 * length pre) (flat_map entry_bytes pre ++ rest) = rest.
Proof. rewrite <- entry_bytes_length. apply drop_app_length. Qed.

(** X2. Entry layout: in the frame of a batch of 16-bit values the [i]-th
    entry (from 0) occupies the 9 bytes from offset [16 + 9 * i]: the type
    byte 0, then light id, R, G and B, two bytes each with the high byte
    first, so that these 9 bytes alone decode to the [i]-th update. *)
Theorem encode_entry_at (updates : list ColorUpdate) (i : nat) (u : ColorUpdate) :
  valid_batch updates ->
  updates !! i = Some u ->
  exists (message : list Z) (ih il rh rl gh gl bh bl : Z),
    encode updates = ok message
    /\ take 9 (drop (16 + 9 * i) message) = [0; ih; il; rh; rl; gh; gl; bh; bl]
    /\ be16 ih il = lightId u /\ be16 rh rl = color0 u
    /\ be16 gh gl = color1 u /\ be16 bh bl = color2 u.
Proof.
  intros Hv Hi.
  exists (header_bytes ++ flat_map entry_bytes updates),
    (hi (lightId u)), (lo (lightId u)), (hi (color0 u)), (lo (color0 u)),
    (hi (color1 u)), (lo (color1 u)), (hi (color2 u)), (lo (color2 u)).
  split; [by apply encode_closed_form |].
  assert (Hu : valid_update u).
  { unfold valid_batch in Hv. rewrite Forall_lookup in Hv. exact (Hv i u Hi). }
  destruct Hu as (Hid & Hr & Hg & Hb).
  split; [| by rewrite !be16_hi_lo].
  rewrite <- (take_drop_middle updates i u Hi).
  assert (Hlen : length (take i updates) = i).
  { apply length_take_le. apply lookup_lt_Some in Hi. lia. }
  rewrite flat_map_app. cbn [flat_map].
  change (drop (16 + 9 * i) (header_bytes ++ ?l)) with (drop (9 * i) l).
  rewrite <- Hlen at 1. rewrite drop_entries. reflexivity.
Qed.

Lemma encode_entry_at_witness :
  exists (message : list Z) (ih il rh rl gh gl bh bl : Z),
    encode [mkColorUpdate 1 (0, 65535, 0); mkColorUpdate 258 (1, 2, 772)]
      = ok message
    /\ take 9 (drop (16 + 9 * 1) message) = [0; ih; il; rh; rl; gh; gl; bh; bl]
    /\ be16 ih il = 258 /\ be16 rh rl = 1 /\ be16 gh gl = 2 /\ be16 bh bl = 772.
Proof.
  exact (encode_entry_at
           [mkColorUpdate 1 (0, 65535, 0); mkColorUpdate 258 (1, 2, 772)]
           1 (mkColorUpdate 258 (1, 2, 772)) ltac:(valid_by_decide) eq_refl).
Defined.

(** X3. Concatenation: the frame of a batch followed by another is the frame
    of the first followed by the entries of the second, that is, the second
    frame without its 16-byte header. *)
Theorem encode_app (first second : list ColorUpdate) :
  valid_batch first ->
  valid_batch second ->
  exists m1 m2 : list Z,
    encode first = ok m1
    /\ encode second = ok m2
    /\ encode (first ++ second) = ok (m1 ++ drop 16 m2).
Proof.
  intros H1 H2.
  exists (header_bytes ++ flat_map entry_bytes first),
    (header_bytes ++ flat_map entry_bytes second).
  split; [by apply encode_closed_form |].
  split; [by apply encode_closed_form |].
  rewrite encode_closed_form by (by apply Forall_app).
  rewrite flat_map_app, <- app_assoc. reflexivity.
Qed.

Lemma encode_app_witness :
  exists m1 m2 : list Z,
    encode [mkColorUpdate 1 (0, 65535, 0)] = ok m1
    /\ encode [mkColorUpdate 2 (1, 2, 3)] = ok m2
    /\ encode ([mkColorUpdate 1 (0, 65535, 0)] ++ [mkColorUpdate 2 (1, 2, 3)])
       = ok (m1 ++ drop 16 m2).
Proof.
  exact (encode_app [mkColorUpdate 1 (0, 65535, 0)] [mkColorUpdate 2 (1, 2, 3)]
           ltac:(valid_by_decide) ltac:(valid_by_decide)).
Defined.

Lemma entry_of_inj (u v : ColorUpdate) : entry_of u = entry_of v -> u = v.
Proof.
  destruct u as [idu [[ru gu] bu]], v as [idv [[rv gv] bv]].
  unfold entry_of, color0, color1, color2. cbn. congruence.
Qed.

Lemma map_entry_of_inj (us vs : list ColorUpdate) :
  map entry_of us = map entry_of vs -> us = vs.
Proof.
  revert vs. induction us as [| u us IH]; intros [| v vs] Heq;
    try discriminate; [reflexivity |].
  cbn [map] in Heq.
  assert (Hhd : entry_of u = entry_of v) by congruence.
  assert (Htl : map entry_of us = map entry_of vs) by congruence.
  apply entry_of_inj in Hhd. subst v. f_equal. by apply IH.
Qed.

(** X4. Distinct batches of 16-bit values have distinct frames: the encoder
    is injective on them, so entries (duplicated light ids included) are
    never merged, dropped or reordered. *)
Theorem encode_injective (first second : list ColorUpdate) :
  valid_batch first ->
  valid_batch second ->
  encode first = encode second ->
  first = second.
Proof.
  intros H1 H2 Heq.
  rewrite !encode_closed_form in Heq by assumption.
  unfold ok in Heq.
  assert (Hentries : flat_map entry_bytes first = flat_map entry_bytes second)
    by (apply (app_inv_head header_bytes); congruence).
  clear Heq. rename Hentries into Heq.
  pose proof (decode_entry_bytes first H1) as D1.
  pose proof (decode_entry_bytes second H2) as D2.
  rewrite Heq, D2 in D1. injection D1 as D1.
  symmetry. by apply map_entry_of_inj.
Qed.

Lemma encode_injective_witness :
  [mkColorUpdate 1 (0, 65535, 0); mkColorUpdate 1 (0, 65535, 0)]
  = [mkColorUpdate 1 (0, 65535, 0); mkColorUpdate 1 (0, 65535, 0)].
Proof.
  exact (encode_injective
           [mkColorUpdate 1 (0, 65535, 0); mkColorUpdate 1 (0, 65535, 0)]
           [mkColorUpdate 1 (0, 65535, 0); mkColorUpdate 1 (0, 65535, 0)]
           ltac:(valid_by_decide) ltac:(valid_by_decide) eq_refl).
Defined.

(** ** A batch the encoder rejects *)

Lemma sendUpdatePacket_invalid (updates : list ColorUpdate) (c : HueDtlsController) :
  ~ valid_batch updates ->
  sendUpdatePacket updates c = mkOutcome c [] (throw (RangeError "value")).
Proof.
  intros Hbad. rewrite sendUpdatePacket_eq, encode_invalid by assumption.
  reflexivity.
Qed.

(** X5. A batch with a value outside [0, 65535] that passes the throttle on
    a connected session makes [sendUpdate] raise the range error with nothing
    logged or written; all the same the batch has been recorded as last
    update with the current time and the throttle slot is used up, so the
    very next call, whatever its batch, is dropped. *)
Theorem sendUpdate_rejected_batch (c : HueDtlsController) (now next : Z)
    (updates following : list ColorUpdate) :
  connected c ->
  skip c = false ->
  ~ valid_batch updates ->
  let o := sendUpdate now updates c in
  value o = throw (RangeError "value")
  /\ effects o = []
  /\ lastUpdate (after o) = Some updates
  /\ lastUpdateTimestamp (after o) = Some now
  /\ skip (after o) = true
  /\ effects (sendUpdate next following (after o)) = []
  /\ lastUpdate (after (sendUpdate next following (after o))) = Some updates.
Proof.
  intros Hc Hk Hbad. cbv zeta.
  rewrite sendUpdate_accepted by assumption.
  rewrite sendUpdatePacket_invalid by assumption. cbn [after effects value].
  do 5 (split; [reflexivity |]).
  rewrite sendUpdate_suppressed
    by (by apply accepted_state_connected || reflexivity).
  by split.
Qed.

Lemma sendUpdate_rejected_batch_witness :
  let o := sendUpdate 1000 [mkColorUpdate 1 (0, 70000, 0)] connected_controller in
  value o = throw (RangeError "value")
  /\ effects o = []
  /\ lastUpdate (after o) = Some [mkColorUpdate 1 (0, 70000, 0)]
  /\ lastUpdateTimestamp (after o) = Some 1000
  /\ skip (after o) = true
  /\ effects (sendUpdate 1040 [mkColorUpdate 1 (0, 65535, 0)] (after o)) = []
  /\ lastUpdate (after (sendUpdate 1040 [mkColorUpdate 1 (0, 65535, 0)] (after o)))
     = Some [mkColorUpdate 1 (0, 70000, 0)].
Proof.
  apply (sendUpdate_rejected_batch connected_controller 1000 1040
           [mkColorUpdate 1 (0, 70000, 0)] [mkColorUpdate 1 (0, 65535, 0)]
           connected_controller_connected eq_refl).
  intros Hv. apply (bool_decide_pack _) in Hv. vm_compute in Hv. exact Hv.
Defined.

(** X6. After such a rejected batch the keepalive is of no use: every tick
    later than two seconds after it raises the same range error and writes
    nothing, tick after tick, because the recorded batch cannot be encoded
    and a tick never replaces it. *)
Theorem keepalive_after_rejected_batch (c : HueDtlsController) (now tick : Z)
    (updates : list ColorUpdate) :
  connected c ->
  skip c = false ->
  ~ valid_batch updates ->
  now + 2000 < tick ->
  let c' := after (sendUpdate now updates c) in
  updateKeepalive tick c' = mkOutcome c' [] (throw (RangeError "value")).
Proof.
  intros Hc Hk Hbad Hlate. cbv zeta.
  rewrite sendUpdate_accepted by assumption. cbn [after].
  rewrite updateKeepalive_eq. cbn [lastUpdateTimestamp lastUpdate accepted_state
    set_lastUpdateTimestamp set_lastUpdate set_skip].
  replace (tick - now <=? 2000) with false by (symmetry; apply Z.leb_gt; lia).
  by apply sendUpdatePacket_invalid.
Qed.

Lemma keepalive_after_rejected_batch_witness :
  let c' := after (sendUpdate 1000 [mkColorUpdate 1 (0, 70000, 0)]
                     connected_controller) in
  updateKeepalive 3001 c' = mkOutcome c' [] (throw (RangeError "value")).
Proof.
  apply (keepalive_after_rejected_batch connected_controller 1000 3001
           [mkColorUpdate 1 (0, 70000, 0)]
           connected_controller_connected eq_refl).
  - intros Hv. apply (bool_decide_pack _) in Hv. vm_compute in Hv. exact Hv.
  - lia.
Defined.

(** ** Keepalive against the caller's stream *)

(** X7. The keepalive resends the last transmitted batch, not the last
    submitted one: after an admitted batch at time [T] and a following call
    that the throttle drops, a tick later than [T + 2s] writes the frame of
    the admitted batch, however recent the dropped call was, since a dropped
    call refreshes neither the batch nor the timestamp. *)
Theorem keepalive_resends_transmitted_batch (c : HueDtlsController)
    (T T' tick : Z) (sent dropped : list ColorUpdate) (message : list Z) :
  connected c ->
  skip c = false ->
  encode sent = ok message ->
  T + 2000 < tick ->
  let c2 := after (sendUpdate T' dropped (after (sendUpdate T sent c))) in
  effects (sendUpdate T' dropped (after (sendUpdate T sent c))) = []
  /\ lastUpdate c2 = Some sent
  /\ lastUpdateTimestamp c2 = Some T
  /\ effects (updateKeepalive tick c2) = transmission message.
Proof.
  intros Hc Hk Henc Hlate. cbv zeta.
  rewrite (sendUpdate_accepted T) by assumption. cbn [after].
  rewrite sendUpdate_suppressed
    by (by apply accepted_state_connected || reflexivity).
  cbn [after effects]. do 3 (split; [reflexivity |]).
  rewrite updateKeepalive_eq.
  cbn [lastUpdateTimestamp lastUpdate accepted_state
       set_lastUpdateTimestamp set_lastUpdate set_skip].
  replace (tick - T <=? 2000) with false by (symmetry; apply Z.leb_gt; lia).
  rewrite (sendUpdatePacket_connected sent message); [reflexivity | | exact Henc].
  destruct Hc as [Hs Ho]. by split.
Qed.

Lemma keepalive_resends_transmitted_batch_witness :
  let c2 := after (sendUpdate 2900 [mkColorUpdate 1 (9, 9, 9)]
                     (after (sendUpdate 1000 [mkColorUpdate 1 (0, 65535, 0)]
                               connected_controller))) in
  writes (effects (updateKeepalive 3001 c2))
  = [[72; 117; 101; 83; 116; 114; 101; 97; 109; 1; 0; 0; 0; 0; 0; 0;
      0; 0; 1; 0; 0; 255; 255; 0; 0]].
Proof.
  intros c2.
  pose proof (keepalive_resends_transmitted_batch connected_controller
                1000 2900 3001 [mkColorUpdate 1 (0, 65535, 0)]
                [mkColorUpdate 1 (9, 9, 9)] _
                connected_controller_connected eq_refl eq_refl ltac:(lia))
    as (_ & _ & _ & Htick).
  fold c2 in Htick. rewrite Htick. reflexivity.
Defined.

(** ** The event loop: what events leave alone *)

Lemma with_this_this (w : World) : with_this (this w) w = w.
Proof. by destruct w. Qed.

Lemma call_close_frame (w : World) :
  socket (this (call_close w).1) = socket (this w)
  /\ connectOnce (call_close w).1 = connectOnce w
  /\ intervals (call_close w).1 = intervals w
  /\ count_emits "connected" (call_close w).2 = 0%nat.
Proof.
  rewrite call_close_eq.
  destruct (opened (this w)); [| by repeat split].
  destruct (socket (this w)) eqn:Hs; by repeat split.
Qed.

Lemma step_tick_world (now : Z) (id : Timeout) (w : World) :
  (step now (TimerTick id) w).1 = w.
Proof.
  cbn [step]. destruct (bool_decide (id ∈ intervals w)); [| reflexivity].
  unfold run_method. cbn [fst]. rewrite updateKeepalive_after.
  apply with_this_this.
Qed.

(** Events other than [connect()] and the socket's 'connect' keep the socket,
    the 'connect' listener and the intervals as they are. *)
Lemma step_frame (now : Z) (ev : Event) (w : World) :
  ev <> CallConnect ->
  ev <> SocketConnect ->
  socket (this (step now ev w).1) = socket (this w)
  /\ connectOnce (step now ev w).1 = connectOnce w
  /\ intervals (step now ev w).1 = intervals w
  /\ count_emits "connected" (step now ev w).2 = 0%nat.
Proof.
  intros Hcc Hsc.
  pose proof (call_close_frame w) as Hclose.
  destruct ev; cbn [step]; [congruence | congruence | | | | | |].
  - destruct (socket (this w)) eqn:Hsock; [| cbn [fst snd]; by rewrite Hsock].
    exact Hclose.
  - destruct (socket (this w)) eqn:Hsock; [| cbn [fst snd]; by rewrite Hsock].
    destruct (call_close w) as [w' effs]. exact Hclose.
  - exact Hclose.
  - destruct (pendingEnd w); by repeat split.
  - unfold run_method, with_this. cbn [fst snd this connectOnce intervals].
    destruct (sendUpdate_lifecycle now updates (this w) "connected")
      as (_ & Hsock & Hemit).
    rewrite count_emits_app, Hemit, count_emits_uncaught. by repeat split.
  - rewrite (surjective_pairing (step now (TimerTick id) w)) at 1 2 3.
    rewrite step_tick_world. do 3 (split; [reflexivity |]).
    cbn [step]. destruct (bool_decide (id ∈ intervals w)); [| reflexivity].
    unfold run_method. cbn [snd].
    by rewrite count_emits_app, updateKeepalive_no_emit, count_emits_uncaught.
Qed.

(** While the session is not opened, the same events leave the whole
    controller as it is. *)
Lemma step_idle (now : Z) (ev : Event) (w : World) :
  opened (this w) = false ->
  ev <> CallConnect ->
  ev <> SocketConnect ->
  this (step now ev w).1 = this w.
Proof.
  intros Ho Hcc Hsc.
  assert (Hclose : call_close w = (w, [])) by (by rewrite call_close_eq, Ho).
  destruct ev;
    [congruence | congruence | | | | | | by rewrite step_tick_world];
    cbn [step].
  - destruct (socket (this w)); [by rewrite Hclose | reflexivity].
  - destruct (socket (this w)); [by rewrite Hclose | reflexivity].
  - by rewrite Hclose.
  - by destruct (pendingEnd w).
  - unfold run_method. cbn [fst with_this this].
    by rewrite sendUpdate_not_connected by (by right).
Qed.

Lemma run_cons_world (now : Z) (ev : Event) (rest : list (Z * Event)) (w : World) :
  (run ((now, ev) :: rest) w).1 = (run rest (step now ev w).1).1.
Proof.
  cbn [run]. destruct (step now ev w) as [w1 effs1]. cbn [fst snd].
  by destruct (run rest w1).
Qed.

Lemma run_cons_effects (now : Z) (ev : Event) (rest : list (Z * Event)) (w : World) :
  (run ((now, ev) :: rest) w).2
  = (step now ev w).2 ++ (run rest (step now ev w).1).2.
Proof.
  cbn [run]. destruct (step now ev w) as [w1 effs1]. cbn [fst snd].
  by destruct (run rest w1).
Qed.

(** ** Keepalive and the rest of the controller *)

(** X8. Keepalive ticks leave no trace in the controller: removing every
    interval tick from a sequence of events changes nothing in the world it
    ends in (throttle flag, last update and its timestamp, session state,
    pending closes, timers). In particular a tick never takes a throttle
    slot and never refreshes the timestamp. *)
Theorem ticks_leave_world_unchanged (trace : list (Z * Event)) (w : World) :
  (run trace w).1 = (run (without_ticks trace) w).1.
Proof.
  revert w. induction trace as [| [now ev] rest IH]; intros w; [reflexivity |].
  rewrite run_cons_world. unfold without_ticks. cbn [List.filter].
  destruct (is_tick (now, ev)) eqn:Htick; cbn [negb].
  - destruct ev; try discriminate. rewrite step_tick_world. apply IH.
  - rewrite run_cons_world. apply IH.
Qed.

(** ** Intervals *)

Lemma step_intervals (now : Z) (ev : Event) (w : World) :
  intervals (step now ev w).1
  = intervals w ++ (if is_connect (now, ev) then [length (intervals w)] else []).
Proof.
  destruct ev as [| | | | | | updates | id]; [reflexivity | | | | | | |].
  1: { cbn [step is_connect snd]. rewrite app_nil_r. by destruct (connectOnce w). }
  all: match goal with
       | |- context [step ?t ?ev ?w0] =>
           destruct (step_frame t ev w0 ltac:(discriminate) ltac:(discriminate))
             as (_ & _ & -> & _)
       end; cbn [is_connect snd]; by rewrite app_nil_r.
Qed.

(** X9. No event ever removes an interval: after any sequence of events the
    running intervals are those there were before, followed by one new handle
    for each [connect()] call in the sequence. Every [connect()] leaves one
    more keepalive timer running for good. *)
Theorem intervals_only_grow (trace : list (Z * Event)) (w : World) :
  intervals (run trace w).1
  = intervals w ++ seq (length (intervals w)) (count_connects trace).
Proof.
  revert w. induction trace as [| [now ev] rest IH]; intros w.
  - cbn. by rewrite app_nil_r.
  - rewrite run_cons_world, IH, step_intervals.
    unfold count_connects. cbn [List.filter].
    destruct (is_connect (now, ev)); cbn [length seq].
    + rewrite length_app, <- app_assoc. cbn [length app].
      by rewrite Nat.add_1_r.
    + by rewrite app_nil_r.
Qed.

(** ** From [connect()] to the first frame *)

Lemma step_before_connect (now : Z) (ev : Event) (w : World) :
  ev <> SocketConnect ->
  opened (this w) = false ->
  skip (this w) = false ->
  opened (this (step now ev w).1) = false
  /\ skip (this (step now ev w).1) = false
  /\ (awaiting_connect w \/ ev = CallConnect -> awaiting_connect (step now ev w).1).
Proof.
  intros Hsc Ho Hk.
  assert (Hcases : ev = CallConnect \/ ev <> CallConnect)
    by (destruct ev; (by left) || (by right)).
  destruct Hcases as [-> | Hcc].
  - cbn. split; [exact Ho |]. split; [exact Hk |].
    intros _. split; [reflexivity | by eexists].
  - rewrite (step_idle now ev w Ho Hcc Hsc).
    split; [exact Ho |]. split; [exact Hk |].
    intros [[Hco Hs] | ?]; [| contradiction].
    destruct (step_frame now ev w Hcc Hsc) as (Hs' & Hco' & _).
    split; [by rewrite Hco' | by rewrite Hs'].
Qed.

Lemma run_before_connect (trace : list (Z * Event)) :
  Forall (fun e => e.2 <> SocketConnect) trace ->
  forall w : World,
    opened (this w) = false ->
    skip (this w) = false ->
    opened (this (run trace w).1) = false
    /\ skip (this (run trace w).1) = false
    /\ (awaiting_connect w \/ Exists (fun e => e.2 = CallConnect) trace ->
        awaiting_connect (run trace w).1).
Proof.
  induction 1 as [| [now ev] rest Hev Hrest IH]; intros w Ho Hk.
  - cbn. split; [exact Ho |]. split; [exact Hk |].
    intros [H | H]; [exact H | by apply Exists_nil in H].
  - rewrite run_cons_world.
    destruct (step_before_connect now ev w Hev Ho Hk) as (Ho' & Hk' & Haw).
    destruct (IH _ Ho' Hk') as (Ho2 & Hk2 & Haw2).
    split; [exact Ho2 |]. split; [exact Hk2 |].
    intros [H | H]; apply Haw2.
    + left. apply Haw. by left.
    + apply Exists_cons in H. destruct H as [H | H]; [| by right].
      left. apply Haw. by right.
Qed.

(** X10. Updates submitted before the socket has fired 'connect' are dropped
    without a trace: from a new controller, whatever happens before that
    event (calls of [connect()], [sendUpdate], [close()], ticks) writes
    nothing and uses no throttle slot, so that once [connect()] has been
    called the 'connect' event notifies 'connected' and the first update
    submitted after it is transmitted. *)
Theorem first_update_after_connect (trace : list (Z * Event)) (t1 t2 : Z)
    (updates : list ColorUpdate) (message : list Z) :
  Forall (fun e => e.2 <> SocketConnect) trace ->
  Exists (fun e => e.2 = CallConnect) trace ->
  encode updates = ok message ->
  writes (run trace new_world).2 = []
  /\ (run [(t1, SocketConnect); (t2, CallSendUpdate updates)]
          (run trace new_world).1).2
     = Emit "connected" :: transmission message.
Proof.
  intros Htrace Hconnect Henc.
  split; [by apply run_closed |].
  destruct (run_before_connect trace Htrace new_world eq_refl eq_refl)
    as (Ho & Hk & Haw).
  destruct (Haw (or_intror Hconnect)) as [Hco Hs].
  set (w := (run trace new_world).1) in *.
  rewrite run_cons_effects, run_cons_effects. cbn [run]. rewrite app_nil_r.
  cbn [step]. rewrite Hco.
  unfold run_method, bind, assign, perform, with_this.
  cbn [after effects value fst snd this uncaught app].
  assert (Hc : connected (set_opened true (this w))) by (by split).
  rewrite sendUpdate_accepted by assumption.
  rewrite (sendUpdatePacket_connected updates message)
    by (by apply accepted_state_connected || assumption).
  reflexivity.
Qed.

Lemma first_update_after_connect_witness :
  writes (run [(0, CallSendUpdate [mkColorUpdate 1 (9, 9, 9)]); (5, CallConnect);
               (6, CallSendUpdate [mkColorUpdate 1 (9, 9, 9)]);
               (7, TimerTick 0%nat)] new_world).2 = []
  /\ (run [(10, SocketConnect);
           (20, CallSendUpdate [mkColorUpdate 1 (0, 65535, 0)])]
          (run [(0, CallSendUpdate [mkColorUpdate 1 (9, 9, 9)]); (5, CallConnect);
                (6, CallSendUpdate [mkColorUpdate 1 (9, 9, 9)]);
                (7, TimerTick 0%nat)] new_world).1).2
     = Emit "connected"
         :: transmission
              [72; 117; 101; 83; 116; 114; 101; 97; 109; 1; 0; 0; 0; 0; 0; 0;
               0; 0; 1; 0; 0; 255; 255; 0; 0].
Proof.
  apply (first_update_after_connect
           [(0, CallSendUpdate [mkColorUpdate 1 (9, 9, 9)]); (5, CallConnect);
            (6, CallSendUpdate [mkColorUpdate 1 (9, 9, 9)]);
            (7, TimerTick 0%nat)]
           10 20 [mkColorUpdate 1 (0, 65535, 0)]).
  - repeat constructor; discriminate.
  - apply Exists_cons_tl, Exists_cons_hd. reflexivity.
  - reflexivity.
Defined.

(** ** Notifications *)

Lemma run_session_socket (trace : list (Z * Event)) :
  Forall session_event trace ->
  forall w : World, socket (this (run trace w).1) = socket (this w).
Proof.
  induction 1 as [| [now ev] rest [Hcc Hsc] Hrest IH]; intros w; [reflexivity |].
  rewrite run_cons_world, IH.
  by destruct (step_frame now ev w Hcc Hsc) as (-> & _).
Qed.

(** X11. One session, one 'close': on a connected session, whatever the order
    of [close()] calls, socket errors, socket 'close' events, end callbacks,
    updates and ticks, 'close' is emitted at most once, and it has been
    emitted exactly when the session is no longer opened and no [close()] is
    still waiting for the socket to end. *)
Theorem close_at_most_once (w : World) (trace : list (Z * Event)) :
  connected (this w) ->
  pendingEnd w = 0%nat ->
  Forall session_event trace ->
  (count_emits "close" (run trace w).2 <= 1)%nat
  /\ (count_emits "close" (run trace w).2 = 1%nat
      <-> opened (this (run trace w).1) = false
          /\ pendingEnd (run trace w).1 = 0%nat).
Proof.
  intros [Hs Ho] Hp Htrace.
  pose proof (run_close_budget trace Htrace w) as Hbudget.
  pose proof (run_session_socket trace Htrace w) as Hsock.
  unfold close_budget in Hbudget.
  rewrite Hsock, Ho, Hp, bool_decide_true in Hbudget by assumption.
  set (n := count_emits _ _) in *.
  destruct (opened (this (run trace w).1)); cbn in Hbudget.
  - split; [lia |]. split; [lia | by intros [? _]].
  - split; [lia |]. split; [intros; split; [reflexivity | lia] | intros [_ ?]; lia].
Qed.

Lemma close_at_most_once_witness :
  le (count_emits "close"
        (run [(1, SocketError); (2, CallClose); (3, SocketEndCallback);
              (4, SocketClose); (5, CallClose)]
             (mkWorld connected_controller [0%nat] 0 false)).2) 1%nat.
Proof.
  apply (proj1 (close_at_most_once
                  (mkWorld connected_controller [0%nat] 0 false)
                  [(1, SocketError); (2, CallClose); (3, SocketEndCallback);
                   (4, SocketClose); (5, CallClose)]
                  connected_controller_connected eq_refl
                  ltac:(repeat constructor; discriminate))).
Defined.

(** X12. A socket error on a connected session logs the interruption and
    ends the socket; when the socket has ended, 'close' is emitted. After
    that the session emits no second 'close' and writes nothing, whatever
    follows. *)
Theorem socket_error_closes_session (w : World) (t1 t2 : Z)
    (rest : list (Z * Event)) :
  connected (this w) ->
  pendingEnd w = 0%nat ->
  Forall session_event rest ->
  (run [(t1, SocketError); (t2, SocketEndCallback)] w).2
  = [ConsoleLog "UDP Stream interrupted, closing connection."; SocketEnd;
     Emit "close"]
  /\ count_emits "close"
       (run rest (run [(t1, SocketError); (t2, SocketEndCallback)] w).1).2
     = 0%nat
  /\ writes (run rest (run [(t1, SocketError); (t2, SocketEndCallback)] w).1).2
     = [].
Proof.
  intros [[s Hs] Ho] Hp Hrest.
  destruct w as [[sock o k lu ts tm] ivs p once].
  cbn in Hs, Ho, Hp. subst sock o p.
  split; [reflexivity |].
  set (w' := (run _ _).1).
  assert (Hw' : w' = mkWorld (mkController (Some s) false k lu ts tm) ivs 0 once)
    by reflexivity.
  split.
  - pose proof (run_close_budget rest Hrest w') as Hbudget.
    assert (Hb : close_budget w' = 0%nat) by (by rewrite Hw').
    rewrite Hb in Hbudget. lia.
  - apply run_closed; [| by rewrite Hw'].
    eapply Forall_impl; [exact Hrest |]. by intros e [_ ?].
Qed.

Lemma socket_error_closes_session_witness :
  (run [(1, SocketError); (2, SocketEndCallback)]
       (mkWorld connected_controller [0%nat] 0 false)).2
  = [ConsoleLog "UDP Stream interrupted, closing connection."; SocketEnd;
     Emit "close"].
Proof.
  apply (proj1 (socket_error_closes_session
                  (mkWorld connected_controller [0%nat] 0 false) 1 2
                  [(3, CallClose); (4, SocketClose)]
                  connected_controller_connected eq_refl
                  ltac:(repeat constructor; discriminate))).
Defined.

Lemma call_close_no_close_emit (w : World) :
  count_emits "close" (call_close w).2 = 0%nat.
Proof.
  rewrite call_close_eq. destruct (opened (this w)); [| reflexivity].
  by destruct (socket (this w)).
Qed.

Lemma step_no_close_emit (now : Z) (ev : Event) (w : World) :
  ev <> SocketEndCallback ->
  count_emits "close" (step now ev w).2 = 0%nat.
Proof.
  intros Hev. pose proof (call_close_no_close_emit w) as Hclose.
  destruct ev; [| | | | | congruence | |]; cbn [step].
  - reflexivity.
  - by destruct (connectOnce w).
  - by destruct (socket (this w)).
  - destruct (socket (this w)); [| reflexivity].
    destruct (call_close w) as [w' effs]. exact Hclose.
  - exact Hclose.
  - unfold run_method. cbn [snd].
    destruct (sendUpdate_lifecycle now updates (this w) "close") as (_ & _ & Hn).
    by rewrite count_emits_app, Hn, count_emits_uncaught.
  - destruct (bool_decide (id ∈ intervals w)); [| reflexivity].
    unfold run_method. cbn [snd].
    by rewrite count_emits_app, updateKeepalive_no_emit, count_emits_uncaught.
Qed.

(** X13. [close()] never notifies by itself: 'close' is only emitted when the
    callback handed to [socket.end] runs. In a sequence of events without
    that callback, whatever else happens, no 'close' is emitted. *)
Theorem close_waits_for_socket_end (trace : list (Z * Event)) (w : World) :
  Forall (fun e => e.2 <> SocketEndCallback) trace ->
  count_emits "close" (run trace w).2 = 0%nat.
Proof.
  intros Htrace. revert w.
  induction Htrace as [| [now ev] rest Hev Hrest IH]; intros w; [reflexivity |].
  rewrite run_cons_effects, count_emits_app, IH.
  by rewrite step_no_close_emit.
Qed.

Lemma close_waits_for_socket_end_witness :
  count_emits "close"
    (run [(1, CallClose); (2, SocketClose); (3, SocketError); (4, CallClose)]
         (mkWorld connected_controller [0%nat] 0 false)).2 = 0%nat.
Proof.
  apply (close_waits_for_socket_end
           [(1, CallClose); (2, SocketClose); (3, SocketError); (4, CallClose)]).
  repeat constructor; discriminate.
Defined.






(** ** The command line *)

Lemma find_first {A} (p : A -> bool) (l : list A) :
  existsb p l = true ->
  exists (pre : list A) (x : A) (post : list A),
    l = pre ++ x :: post
    /\ Forall (fun y => p y = false) pre
    /\ p x = true
    /\ List.find p l = Some x.
Proof.
  induction l as [| a l IH]; [discriminate |]. cbn [existsb List.find].
  destruct (p a) eqn:Hpa.
  - intros _. exists [], a, l. by repeat split.
  - cbn [orb]. intros Hex.
    destruct (IH Hex) as (pre & x & post & -> & Hpre & Hx & Hfind).
    exists (a :: pre), x, post. split; [reflexivity |].
    split; [by constructor |]. by split.
Qed.

(** X16. With a paired bridge, as soon as some configured light has a missing
    or unknown channel mode [startProcess] starts nothing: it reports one
    light and exits with status 1, and the light it names is the first one
    in configuration order whose mode is invalid. The light looked up for
    the message always exists. *)
Theorem startProcess_reports_first_invalid_light (config : Cli.Settings)
    (host username clientKey : string) (ls : list Cli.LightConfiguration) :
  Cli.hueHost config = Some host ->
  Cli.hueUsername config = Some username ->
  Cli.hueClientKey config = Some clientKey ->
  Cli.hueLights config = Some ls ->
  existsb Cli.invalid_channel_mode ls = true ->
  exists (pre : list Cli.LightConfiguration) (light : Cli.LightConfiguration)
         (post : list Cli.LightConfiguration),
    ls = pre ++ light :: post
    /\ Forall (fun l => Cli.invalid_channel_mode l = false) pre
    /\ Cli.invalid_channel_mode light = true
    /\ Cli.startProcess config
       = [Cli.LogError
            ("Invalid channel mode in light configuration (lightId "
             +:+ Cli.lightId light
             +:+ "). Valid values are: 8bit, 8bit-dimmable, 16bit")%string;
          Cli.Exit 1].
Proof.
  intros Hh Hu Hk Hl Hex.
  destruct (find_first _ _ Hex) as (pre & light & post & Hls & Hpre & Hbad & Hfind).
  exists pre, light, post. do 3 (split; [assumption |]).
  unfold Cli.startProcess. by rewrite Hh, Hu, Hk, Hl, Hex, Hfind.
Qed.

Lemma startProcess_reports_first_invalid_light_witness :
  exists (pre : list Cli.LightConfiguration) (light : Cli.LightConfiguration)
         (post : list Cli.LightConfiguration),
    [Cli.mkLight "1" 1 (Some "8bit-dimmable"); Cli.mkLight "2" 5 (Some "8-bit");
     Cli.mkLight "3" 9 None]%string
    = pre ++ light :: post
    /\ Forall (fun l => Cli.invalid_channel_mode l = false) pre
    /\ Cli.invalid_channel_mode light = true
    /\ Cli.startProcess
         (Cli.mkSettings (Some "192.168.1.2") (Some "user") (Some "00ff")
            (Some [Cli.mkLight "1" 1 (Some "8bit-dimmable");
                   Cli.mkLight "2" 5 (Some "8-bit"); Cli.mkLight "3" 9 None])
            (Some "127.0.0.1") (Some 11))%string
       = [Cli.LogError
            ("Invalid channel mode in light configuration (lightId "
             +:+ Cli.lightId light
             +:+ "). Valid values are: 8bit, 8bit-dimmable, 16bit")%string;
          Cli.Exit 1].
Proof.
  exact (startProcess_reports_first_invalid_light
           (Cli.mkSettings (Some "192.168.1.2") (Some "user") (Some "00ff")
              (Some [Cli.mkLight "1" 1 (Some "8bit-dimmable");
                     Cli.mkLight "2" 5 (Some "8-bit"); Cli.mkLight "3" 9 None])
              (Some "127.0.0.1") (Some 11))%string
           _ _ _ _ eq_refl eq_refl eq_refl eq_refl eq_refl).
Defined.

Lemma invalid_channel_mode_false (light : Cli.LightConfiguration) :
  Cli.invalid_channel_mode light = false
  <-> Cli.channelMode light = Some "8bit"%string
      \/ Cli.channelMode light = Some "8bit-dimmable"%string
      \/ Cli.channelMode light = Some "16bit"%string.
Proof.
  unfold Cli.invalid_channel_mode.
  destruct (Cli.channelMode light) as [mode |].
  - destruct (String.eqb_spec mode "8bit") as [-> | H1]; [by split; auto |].
    destruct (String.eqb_spec mode "8bit-dimmable") as [-> | H2]; [by split; auto |].
    destruct (String.eqb_spec mode "16bit") as [-> | H3]; [by split; auto |].
    cbn. split; [discriminate |]. intros [H | [H | H]]; congruence.
  - split; [discriminate |]. intros [H | [H | H]]; discriminate.
Qed.

Lemma existsb_false_Forall {A} (p : A -> bool) (l : list A) :
  existsb p l = false <-> Forall (fun x => p x = false) l.
Proof.
  induction l as [| a l IH]; cbn [existsb].
  - split; [constructor | reflexivity].
  - rewrite orb_false_iff, IH. split.
    + intros [? ?]. by constructor.
    + intros H. by inversion H.
Qed.

(** X17. [startProcess] starts the bridge exactly when host, username and
    client key are all set, the lights setting is present and every light has
    one of the channel modes 8bit, 8bit-dimmable or 16bit; the bridge then
    gets these settings unchanged, with entertainment room 200. When one of
    the three credentials is missing, nothing else is looked at: the only
    effect is the "not paired" message. *)
Theorem startProcess_starts_bridge (config : Cli.Settings)
    (options : Cli.BridgeOptions) :
  (In (Cli.StartBridge options) (Cli.startProcess config)
   <-> exists (host username clientKey : string) (ls : list Cli.LightConfiguration),
         Cli.hueHost config = Some host
         /\ Cli.hueUsername config = Some username
         /\ Cli.hueClientKey config = Some clientKey
         /\ Cli.hueLights config = Some ls
         /\ Forall (fun l => Cli.channelMode l = Some "8bit"%string
                             \/ Cli.channelMode l = Some "8bit-dimmable"%string
                             \/ Cli.channelMode l = Some "16bit"%string) ls
         /\ options = Cli.mkBridgeOptions host username clientKey 200
                        (Cli.artnetHost config) (Cli.artnetUniverse config) ls)
  /\ (Cli.hueHost config = None \/ Cli.hueUsername config = None
      \/ Cli.hueClientKey config = None ->
      Cli.startProcess config
      = [Cli.Log "No Hue bridge is paired yet. Please pair a bridge first"]).
Proof.
  split.
  - unfold Cli.startProcess. split.
    + destruct (Cli.hueHost config) as [host |];
        [| by intros [? | []]].
      destruct (Cli.hueUsername config) as [username |];
        [| by intros [? | []]].
      destruct (Cli.hueClientKey config) as [clientKey |];
        [| by intros [? | []]].
      destruct (Cli.hueLights config) as [ls |];
        [| by intros [? | []]].
      destruct (existsb Cli.invalid_channel_mode ls) eqn:Hex.
      * destruct (List.find Cli.invalid_channel_mode ls);
          [by intros [? | [? | []]] | by intros [? | []]].
      * intros [Heq | []]. exists host, username, clientKey, ls.
        do 4 (split; [reflexivity |]). split; [| congruence].
        apply existsb_false_Forall in Hex.
        eapply Forall_impl; [exact Hex |].
        intros l Hl. by apply invalid_channel_mode_false.
    + intros (host & username & clientKey & ls & -> & -> & -> & -> & Hall & ->).
      assert (Hex : existsb Cli.invalid_channel_mode ls = false).
      { apply existsb_false_Forall. eapply Forall_impl; [exact Hall |].
        intros l Hl. by apply invalid_channel_mode_false. }
      rewrite Hex. by left.
  - unfold Cli.startProcess. intros [-> | [-> | ->]].
    + reflexivity.
    + by destruct (Cli.hueHost config).
    + by destruct (Cli.hueHost config), (Cli.hueUsername config).
Qed.

Lemma startProcess_starts_bridge_witness :
  Cli.startProcess
    (Cli.mkSettings (Some "192.168.1.2") None (Some "00ff") None None None)%string
  = [Cli.Log "No Hue bridge is paired yet. Please pair a bridge first"].
Proof.
  apply (proj2 (startProcess_starts_bridge
                  (Cli.mkSettings (Some "192.168.1.2") None (Some "00ff")
                     None None None)%string
                  (Cli.mkBridgeOptions "" "" "" 200 None None []))).
  right. left. reflexivity.
Defined.

(** X18. [checkOrCreateConfigFile] never touches an existing regular file,
    writes the default settings when nothing is there, and fails with EISDIR,
    changing nothing, when the path is a directory; after a run without
    error a second run changes nothing. *)
Theorem checkOrCreateConfigFile_keeps_existing (p : Cli.PathState) :
  (forall content : string,
     p = Cli.RegularFile content ->
     Cli.checkOrCreateConfigFile p = (Cli.RegularFile content, None))
  /\ (p = Cli.Absent ->
      Cli.checkOrCreateConfigFile p = (Cli.RegularFile Cli.default_config, None))
  /\ (p = Cli.Directory ->
      Cli.checkOrCreateConfigFile p = (Cli.Directory, Some Cli.EISDIR))
  /\ ((Cli.checkOrCreateConfigFile p).2 = None ->
      Cli.checkOrCreateConfigFile (Cli.checkOrCreateConfigFile p).1
      = ((Cli.checkOrCreateConfigFile p).1, None)).
Proof.
  split; [by intros content -> |].
  split; [by intros -> |].
  split; [by intros -> |].
  destruct p; [reflexivity | reflexivity | discriminate].
Qed.

Lemma checkOrCreateConfigFile_keeps_existing_witness :
  Cli.checkOrCreateConfigFile (Cli.RegularFile "{}")
  = (Cli.RegularFile "{}", None).
Proof.
  exact (proj1 (checkOrCreateConfigFile_keeps_existing (Cli.RegularFile "{}"))
           "{}"%string eq_refl).
Defined.

(** ** Keepalive cadence *)

(** X19. With ticks one interval period (1 s) apart, the first keepalive
    retransmission of a batch is the third tick after it was admitted: if the
    last tick at or before the admission time [T] was at [t0], the ticks at
    [t0 + 1s] and [t0 + 2s] are silent and the tick at [t0 + 3s] writes the
    frame, more than 2 s and at most 3 s after [T]. *)
Theorem keepalive_first_retransmission (c : HueDtlsController) (T t0 : Z)
    (batch : list ColorUpdate) (message : list Z) :
  connected c ->
  lastUpdate c = Some batch ->
  lastUpdateTimestamp c = Some T ->
  encode batch = ok message ->
  t0 <= T < t0 + KEEPALIVE_PERIOD ->
  effects (keepalive_ticks [t0 + 1 * KEEPALIVE_PERIOD; t0 + 2 * KEEPALIVE_PERIOD] c) = []
  /\ effects (updateKeepalive (t0 + 3 * KEEPALIVE_PERIOD) c) = transmission message
  /\ T + 2000 < t0 + 3 * KEEPALIVE_PERIOD <= T + 3000.
Proof.
  intros Hc Hlast Hstamp Henc Ht0. unfold KEEPALIVE_PERIOD in *.
  split; [| split; [| lia]].
  - rewrite (keepalive_ticks_stale c T batch message) by assumption.
    cbn [effects flat_map].
    replace (t0 + 1 * 1000 - T <=? 2000) with true by (symmetry; apply Z.leb_le; lia).
    replace (t0 + 2 * 1000 - T <=? 2000) with true by (symmetry; apply Z.leb_le; lia).
    reflexivity.
  - rewrite updateKeepalive_eq, Hstamp, Hlast.
    replace (t0 + 3 * 1000 - T <=? 2000) with false by (symmetry; apply Z.leb_gt; lia).
    by rewrite (sendUpdatePacket_connected batch message).
Qed.

Lemma keepalive_first_retransmission_witness :
  let c := after (sendUpdate 1400 [mkColorUpdate 1 (0, 65535, 0)] connected_controller) in
  effects (keepalive_ticks [1000 + 1 * KEEPALIVE_PERIOD; 1000 + 2 * KEEPALIVE_PERIOD] c) = []
  /\ writes (effects (updateKeepalive (1000 + 3 * KEEPALIVE_PERIOD) c))
     = [[72; 117; 101; 83; 116; 114; 101; 97; 109; 1; 0; 0; 0; 0; 0; 0;
         0; 0; 1; 0; 0; 255; 255; 0; 0]].
Proof.
  intros c.
  destruct (keepalive_first_retransmission c 1400 1000
              [mkColorUpdate 1 (0, 65535, 0)] _
              ltac:(split; [by eexists | reflexivity]) eq_refl eq_refl eq_refl
              ltac:(unfold KEEPALIVE_PERIOD; lia))
    as (Hsilent & Hsend & _).
  split; [exact Hsilent |]. rewrite Hsend. reflexivity.
Defined.
